(** * DRSAC: a shallow embedding of [SAC.py]

    The development follows the source file class by class: the replay
    buffer, the action adapters, the squashed-Gaussian actor, the reward
    model, the construction of the agent and one call of [train].

    Modelling conventions.
    - Python floats and the entries of torch tensors are real numbers
      ([R]); infinities and NaN are not values of the model. Rounding is
      modelled where an exception depends on it, in the constructor's
      computation of [delta]: there the float operations are the fields of
      the class [PyFloat], which leaves their rounding open. Elsewhere the
      operations are the exact ones.
    - A tensor of shape [(batch, d)] is a [list (list R)], one row per batch
      element; a tensor of shape [(batch, 1)] is a [list R].
    - Python exceptions are the constructors of [exn]; a fallible function
      returns a [result].
    - Random draws are explicit: the index vector of [torch.randint] ranges
      over a finite, equally weighted outcome list, and standard normal
      noise is an argument of the function that consumes it.
    - The networks built by [utils.build_net], the linear layers and the
      optimizers of torch are the fields of the class [Torch], a parameter
      of everything that uses them. *)

From Stdlib Require Import Reals Lra Lia.
From stdpp Require Import base decidable option list strings pretty gmap.

Set Default Proof Using "Type".

(** ** Exceptions and the error monad *)

Inductive exn : Set :=
  | IndexError
  | ZeroDivisionError
  | ValueError
  | AssertionError
  | RuntimeError
  | TypeError
  | UnboundLocalError
  | OverflowError.

Inductive result (A : Type) : Type :=
  | Ok (x : A)
  | Raise (e : exn).
Arguments Ok {A} x.
Arguments Raise {A} e.

Global Instance result_ret : MRet result := @Ok.
Global Instance result_bind : MBind result := λ A B f m,
  match m with Ok x => f x | Raise e => Raise e end.
Global Instance result_fmap : FMap result := λ A B f m,
  match m with Ok x => Ok (f x) | Raise e => Raise e end.

Definition is_ok {A} (m : result A) : bool :=
  match m with Ok _ => true | Raise _ => false end.

Definition from_result {A} (d : A) (m : result A) : A :=
  match m with Ok x => x | Raise _ => d end.

(** Reading a local variable: a name that no executed statement has bound
    raises. *)
Definition read_local {A} (v : option A) : result A :=
  match v with Some x => Ok x | None => Raise UnboundLocalError end.

(** [assert c]. *)
Definition py_assert (c : Prop) `{Decision c} : result unit :=
  if decide c then Ok () else Raise AssertionError.

(** Comparisons of reals are decided by the order axioms. *)
Global Instance R_eq_dec : EqDecision R := Req_dec_T.
Global Instance Rlt_decision (x y : R) : Decision (x < y)%R := Rlt_dec x y.
Global Instance Rge_decision (x y : R) : Decision (x >= y)%R := Rge_dec x y.

(** ** Python floats

    The operations on Python floats that the constructor uses. A float is
    the real number it stands for; what an operation returns, the exact
    result rounded to a float, is a field of the class, so that a value may
    come out below or above the exact one, and a non-zero quotient or
    square may come out as zero. [float_pow2 x] is [None] where [x ** 2]
    is out of the range of floats. *)
Class PyFloat : Type := {
  float_pow2 : R → option R;
  float_div : R → R → R;
  float_log : R → R;
  float_add : R → R → R;
  float_sub : R → R → R;
  float_mul : R → R → R }.

(** Arithmetic without rounding. *)
Definition exact_float : PyFloat := {|
  float_pow2 := λ x, Some (x ^ 2)%R;
  float_div := Rdiv;
  float_log := ln;
  float_add := Rplus;
  float_sub := Rminus;
  float_mul := Rmult |}.

(** Operations of IEEE 754 are exact where the exact result is a float;
    these are the instances met when a value is divided by itself. *)
Definition exact_at_one `{PyFloat} : Prop :=
  (∀ x : R, x ≠ 0%R → float_div x x = 1%R)
  ∧ float_log 1 = 0%R
  ∧ float_add 1 0 = 1%R
  ∧ float_sub 1 1 = 0%R
  ∧ float_mul 0.5 0 = 0%R.

(** [x ** 2] on a Python float. *)
Definition py_pow2 `{PyFloat} (x : R) : result R :=
  match float_pow2 x with Some y => Ok y | None => Raise OverflowError end.

(** [x / y] on Python floats. *)
Definition py_div `{PyFloat} (x y : R) : result R :=
  if decide (y = 0%R) then Raise ZeroDivisionError else Ok (float_div x y).

(** [math.log(x)]. *)
Definition math_log `{PyFloat} (x : R) : result R :=
  if decide (0 < x)%R then Ok (float_log x) else Raise ValueError.

(** [for _ in range(n): body]. *)
Definition for_range {S} (n : nat) (body : S → S) (st : S) : S :=
  foldl (λ st' _, body st') st (seq 0 n).

(** ** ReplayBuffer *)

Module Replay.

(** One stored transition, the five values passed to [add]. *)
Record Transition : Type := mkTransition {
  t_s : list R;
  t_a : list R;
  t_r : R;
  t_s_next : list R;
  t_dw : bool }.

(** The object state of [ReplayBuffer]: the cursor, the logical size and
    the five pre-allocated arrays, indexed by slot. *)
Record ReplayBuffer : Type := mkReplayBuffer {
  max_size : nat;
  ptr : nat;
  size : nat;
  s : list (list R);
  a : list (list R);
  r : list R;
  s_next : list (list R);
  dw : list bool }.

(** [ReplayBuffer.__init__]: all arrays are zero tensors with [max_size]
    rows ([False] for the boolean array). *)
Definition init (state_dim action_dim max_size : nat) : ReplayBuffer :=
  {| max_size := max_size;
     ptr := 0;
     size := 0;
     s := replicate max_size (replicate state_dim 0%R);
     a := replicate max_size (replicate action_dim 0%R);
     r := replicate max_size 0%R;
     s_next := replicate max_size (replicate state_dim 0%R);
     dw := replicate max_size false |}.

(** [arr[i] = x] for a non-negative index: an index past the end raises. *)
Definition setitem {A} (arr : list A) (i : nat) (x : A) : result (list A) :=
  if decide (i < length arr) then Ok (<[i:=x]> arr) else Raise IndexError.

(** Python's [%] on non-negative integers. *)
Definition py_mod (x y : nat) : result nat :=
  if decide (y = 0) then Raise ZeroDivisionError else Ok (x mod y).

(** [ReplayBuffer.add]. The rows are assumed to have the dimensions the
    arrays were allocated with. *)
Definition add (b : ReplayBuffer) (x : Transition) : result ReplayBuffer :=
  s' ← setitem (s b) (ptr b) (t_s x);
  a' ← setitem (a b) (ptr b) (t_a x);
  r' ← setitem (r b) (ptr b) (t_r x);
  s_next' ← setitem (s_next b) (ptr b) (t_s_next x);
  dw' ← setitem (dw b) (ptr b) (t_dw x);
  ptr' ← py_mod (ptr b + 1) (max_size b);
  mret {| max_size := max_size b;
          ptr := ptr';
          size := Nat.min (size b + 1) (max_size b);
          s := s'; a := a'; r := r'; s_next := s_next'; dw := dw' |}.

(** A sequence of [add] calls, in order. *)
Fixpoint add_all (b : ReplayBuffer) (xs : list Transition) : result ReplayBuffer :=
  match xs with
  | [] => Ok b
  | x :: xs' => b' ← add b x; add_all b' xs'
  end.

(** The stored transitions read slot by slot: slot [i] pairs the [i]-th
    entries of the five arrays. *)
Fixpoint rows5 (ss aa : list (list R)) (rr : list R) (nn : list (list R))
    (dd : list bool) : list Transition :=
  match ss, aa, rr, nn, dd with
  | x :: ss', y :: aa', z :: rr', n :: nn', d :: dd' =>
      mkTransition x y z n d :: rows5 ss' aa' rr' nn' dd'
  | _, _, _, _, _ => []
  end.

Definition rows (b : ReplayBuffer) : list Transition :=
  rows5 (s b) (a b) (r b) (s_next b) (dw b).

Definition zero_row (state_dim action_dim : nat) : Transition :=
  mkTransition (replicate state_dim 0%R) (replicate action_dim 0%R) 0%R
               (replicate state_dim 0%R) false.

(** Well-formed buffers: what [__init__] establishes and [add] keeps. *)
Record wf (b : ReplayBuffer) : Prop := mkWf {
  wf_pos : 0 < max_size b;
  wf_ptr : ptr b < max_size b;
  wf_size : size b ≤ max_size b;
  wf_s : length (s b) = max_size b;
  wf_a : length (a b) = max_size b;
  wf_r : length (r b) = max_size b;
  wf_s_next : length (s_next b) = max_size b;
  wf_dw : length (dw b) = max_size b }.

(** *** Sampling *)

(** A batch as returned by [sample]: five parallel sequences. *)
Record Batch : Type := mkBatch {
  b_s : list (list R);
  b_a : list (list R);
  b_r : list R;
  b_s_next : list (list R);
  b_dw : list bool }.

(** [arr[ind]] for a vector of non-negative indices (advanced indexing):
    one entry per index, an index past the end raises. *)
Fixpoint getitems {A} (arr : list A) (ind : list nat) : result (list A) :=
  match ind with
  | [] => Ok []
  | i :: ind' =>
      match arr !! i with
      | Some x => xs ← getitems arr ind'; mret (x :: xs)
      | None => Raise IndexError
      end
  end.

(** The [return] line of [sample], for an index vector already drawn. *)
Definition gather (b : ReplayBuffer) (ind : list nat) : result Batch :=
  s' ← getitems (s b) ind;
  a' ← getitems (a b) ind;
  r' ← getitems (r b) ind;
  s_next' ← getitems (s_next b) ind;
  dw' ← getitems (dw b) ind;
  mret (mkBatch s' a' r' s_next' dw').

(** The outcomes of [torch.randint(low, high, size=(n,))]: every vector of
    [n] entries of [[low, high)], each listed once and all equally likely
    (independent uniform draws, with replacement). *)
Fixpoint index_vectors (low high n : nat) : list (list nat) :=
  match n with
  | 0 => [[]]
  | S n' => i ← seq low (high - low); cons i <$> index_vectors low high n'
  end.

(** [torch.randint] rejects an empty range. *)
Definition randint (low high n : nat) : result (list (list nat)) :=
  if decide (low < high) then Ok (index_vectors low high n)
  else Raise RuntimeError.

(** [sample], once the index vector [ind] that [randint] returns is fixed:
    the call to [randint] still raises on an empty buffer. *)
Definition sample_with (b : ReplayBuffer) (batch_size : nat) (ind : list nat)
    : result Batch :=
  _ ← randint 0 (size b) batch_size; gather b ind.

(** [ReplayBuffer.sample] as a finite distribution: the list of its equally
    likely outcomes, each a batch or an exception. *)
Definition sample (b : ReplayBuffer) (batch_size : nat) : list (result Batch) :=
  match randint 0 (size b) batch_size with
  | Ok outcomes => gather b <$> outcomes
  | Raise e => [Raise e]
  end.

End Replay.

(** ** Real-valued tensor operations *)

Module Tensor.
Local Open Scope R_scope.

Definition Rsum (xs : list R) : R := foldr Rplus 0 xs.

(** [x.mean()] of a one-dimensional tensor. *)
Definition mean (xs : list R) : R := Rsum xs / INR (length xs).

(** [x.sum(axis=1, keepdim=True)]. *)
Definition row_sum (xs : list (list R)) : list R := Rsum <$> xs.

Definition tmap (f : R → R) (xs : list (list R)) : list (list R) :=
  (λ row : list R, f <$> row) <$> xs.

(** [torch.cat([x, y], 1)]. *)
Definition cat1 (xs ys : list (list R)) : list (list R) := zip_with app xs ys.

(** [torch.clamp(x, lo, hi)]. *)
Definition clamp (x lo hi : R) : R := Rmin (Rmax x lo) hi.

(** [F.softplus], in its defining form [ln (1 + e^x)]; above its threshold
    torch returns [x] itself, which agrees with this form to the precision
    of the floats. *)
Definition softplus (x : R) : R := ln (1 + exp x).

(** [torch.logsumexp] along one row. *)
Definition logsumexp (xs : list R) : R := ln (Rsum (exp <$> xs)).

(** [F.mse_loss] with the default mean reduction. *)
Definition mse_loss (xs ys : list R) : R :=
  mean (zip_with (λ x y, (x - y) ^ 2) xs ys).

(** A boolean tensor entry used in arithmetic. *)
Definition bool_to_R (b : bool) : R := if b then 1 else 0.

(** [Normal(mu, std).log_prob(u)], the logarithm of the Gaussian density. *)
Definition normal_log_prob (mu std u : R) : R :=
  - ((u - mu) ^ 2) / (2 * std ^ 2) - ln std - ln (sqrt (2 * PI)).

(** [Normal(mu, std).rsample()] for the standard normal draw [eps]. *)
Definition rsample (mu std eps : R) : R := mu + std * eps.

(** The difference of two parameter vectors, entry by entry. *)
Definition vsub (xs ys : list R) : list R := zip_with Rminus xs ys.

(** The Euclidean norm of a parameter vector. *)
Definition norm2 (xs : list R) : R := sqrt (Rsum ((λ x, x ^ 2) <$> xs)).

End Tensor.

(** ** Action adapters *)

Module Adapter.
Local Open Scope R_scope.

(** [Action_adapter]: from [[-1,1]] to [[-max,max]], entry by entry. *)
Definition Action_adapter (a : list R) (max_action : R) : list R :=
  (λ x, x * max_action) <$> a.

(** [Action_adapter_reverse]: from [[-max,max]] to [[-1,1]]. *)
Definition Action_adapter_reverse (act : list R) (max_action : R) : list R :=
  (λ x, x / max_action) <$> act.

End Adapter.

(** ** The torch objects the agent is built from *)

(** The networks of [utils.build_net], the linear heads and the optimizers
    are not defined in [SAC.py]. A parameter vector is a [list R]; a network
    maps a parameter vector and an input row to its output. One optimizer
    call [opt_step st loss p] stands for [zero_grad(); loss.backward();
    step()] on the parameters [p], where [loss] is the scalar loss as a
    function of these parameters. *)
Class Torch : Type := {
  a_net : list R → list R → list R;
  mu_layer : list R → list R → list R;
  log_std_layer : list R → list R → list R;
  Q_1 : list R → list R → R;
  Q_2 : list R → list R → R;
  rnet : list R → list R → list R;
  r_mu_layer : list R → list R → R;
  r_log_std_layer : list R → list R → R;
  r_layer : list R → list R → list R;
  opt_state : Type;
  opt_init : R → opt_state;
  opt_step : opt_state → (list R → R) → list R → opt_state * list R }.

(** ** Actor *)

Module Actor.
Import Tensor.
Local Open Scope R_scope.

Definition LOG_STD_MAX : R := 2.
Definition LOG_STD_MIN : R := -20.

(** The correction subtracted per action dimension in [logp_pi_a]. *)
Definition squash_correction (u : R) : R := 2 * (ln 2 - u - softplus (-2 * u)).

Section Forward.
Context `{Torch}.

(** The locals of [forward] up to the pre-squash sample [u]. [noise i d] is
    the standard normal draw of [dist.rsample()] for batch row [i] and
    action dimension [d]; it is read only when [deterministic] is false. *)
Definition mu_of (theta : list R) (state : list (list R)) : list (list R) :=
  (λ x, mu_layer theta (a_net theta x)) <$> state.

Definition std_of (theta : list R) (state : list (list R)) : list (list R) :=
  let log_std := (λ x, log_std_layer theta (a_net theta x)) <$> state in
  let log_std := tmap (λ x, clamp x LOG_STD_MIN LOG_STD_MAX) log_std in
  tmap exp log_std.

Definition dist_rsample (mu std : list (list R)) (noise : nat → nat → R)
    : list (list R) :=
  imap (λ i row, imap (λ d ms, rsample ms.1 ms.2 (noise i d)) row)
       (zip_with zip mu std).

Definition dist_log_prob (mu std u : list (list R)) : list (list R) :=
  zip_with (λ ms urow, zip_with (λ m_s x, normal_log_prob m_s.1 m_s.2 x) ms urow)
           (zip_with zip mu std) u.

Definition pre_squash (theta : list R) (state : list (list R))
    (deterministic : bool) (noise : nat → nat → R) : list (list R) :=
  let mu := mu_of theta state in
  let std := std_of theta state in
  if deterministic then mu else dist_rsample mu std noise.

(** [Actor.forward]: the action and, on request, its log-probability. *)
Definition forward (theta : list R) (state : list (list R))
    (deterministic with_logprob : bool) (noise : nat → nat → R)
    : list (list R) * option (list R) :=
  let mu := mu_of theta state in
  let std := std_of theta state in
  let u := pre_squash theta state deterministic noise in
  let a := tmap tanh u in
  let logp_pi_a :=
    if with_logprob then
      Some (zip_with Rminus (row_sum (dist_log_prob mu std u))
                            (row_sum (tmap squash_correction u)))
    else None in
  (a, logp_pi_a).

End Forward.
End Actor.

(** ** Double_Q_Critic *)

Module Double_Q_Critic.
Import Tensor.
Section Forward.
Context `{Torch}.

(** [Double_Q_Critic.forward]: both estimates, one entry per batch
    row. *)
Definition forward (phi : list R) (state action : list (list R))
    : list R * list R :=
  let sa := cat1 state action in
  (Q_1 phi <$> sa, Q_2 phi <$> sa).

End Forward.
End Double_Q_Critic.

(** ** Reward *)

Module Reward.
Import Tensor.
Local Open Scope R_scope.

(** [layer[key]] on an [nn.Linear]: the class defines no [__getitem__], so
    the subscript raises whatever the key. *)
Definition getitem_Linear (layer : list R → list R) (key : list (list R))
    : result (list (list R)) :=
  Raise TypeError.

(** [F.softmax(logits, dim=1)]. *)
Definition softmax (logits : list (list R)) : list (list R) :=
  (λ row : list R, (λ x, exp x / Rsum (exp <$> row)) <$> row) <$> logits.

Section Forward.
Context `{Torch}.

(** [Reward.forward], with the subscript operation of the [r_layer] object
    as a parameter. The local [r] is bound in the continuous branch only. *)
Definition forward_with
    (getitem : (list R → list R) → list (list R) → result (list (list R)))
    (psi : list R) (rtype : string) (state action : list (list R))
    (noise : nat → R) : result (list R) :=
  let sa := cat1 state action in
  let r_out := rnet psi <$> sa in
  if decide (rtype = "continuous") then
    let mu := r_mu_layer psi <$> r_out in
    let log_std := r_log_std_layer psi <$> r_out in
    let std := exp <$> log_std in
    let r := imap (λ i ms, rsample ms.1 ms.2 (noise i)) (zip mu std) in
    read_local (Some r)
  else
    logits ← getitem (r_layer psi) r_out;
    let probs := softmax logits in
    read_local None.

(** [Reward.forward]: [r_layer] is an [nn.Linear]. *)
Definition forward := forward_with getitem_Linear.

(** [Reward.sample]: [num] draws per batch row; [noise j i] is the standard
    normal draw number [j] for batch row [i]. *)
Definition sample (psi : list R) (rtype : string) (state action : list (list R))
    (num : nat) (noise : nat → nat → R) : result (list (list R)) :=
  let r :=
    if decide (rtype = "continuous") then
      let sa := cat1 state action in
      let r_out := rnet psi <$> sa in
      let mu := r_mu_layer psi <$> r_out in
      let log_std := r_log_std_layer psi <$> r_out in
      let std := exp <$> log_std in
      Some (imap (λ i ms, (λ j, rsample ms.1 ms.2 (noise j i)) <$> seq 0 num)
                 (zip mu std))
    else None in
  read_local r.

End Forward.
End Reward.

(** ** SAC_countinuous *)

Module Agent.
Import Tensor.
Local Open Scope R_scope.

(** The keyword arguments of the constructor that the modelled methods
    read. [alpha0] is the value of the keyword argument [alpha] as passed:
    only the constructor reads it. The attribute [self.alpha], which
    [train] overwrites in adaptive mode, is the field [alpha] of the
    agent. *)
Record Config : Type := mkConfig {
  state_dim : nat;
  action_dim : nat;
  batch_size : nat;
  gamma : R;
  alpha0 : R;
  adaptive_alpha : bool;
  a_lr : R;
  c_lr : R;
  r_lr : R;
  b_lr : R;
  robust : bool;
  train_std : R;
  eval_std : R;
  rtype : string }.

(** [assert self.delta >= 0], yielding the checked value. *)
Definition check_delta (delta : R) : result R :=
  _ ← py_assert (delta >= 0); mret delta.

(** The float expression
    [0.5*(eval_var / train_var + math.log(train_var / eval_var) - 1)]. *)
Definition delta_expr `{PyFloat} (train_var eval_var : R) : R :=
  float_mul 0.5
    (float_sub
       (float_add (float_div eval_var train_var)
                  (float_log (float_div train_var eval_var)))
       1).

(** The uncertainty radius computed by [__init__] in robust mode, with the
    exceptions of the two squares, of the two float divisions, of
    [math.log] and of the [assert], in the order of evaluation. *)
Definition compute_delta `{PyFloat} (train_std eval_std : R) : result R :=
  train_var ← py_pow2 train_std;
  eval_var ← py_pow2 eval_std;
  q1 ← py_div eval_var train_var;
  q2 ← py_div train_var eval_var;
  l ← math_log q2;
  let delta := float_mul 0.5 (float_sub (float_add q1 l) 1) in
  check_delta delta.

(** The polyak loop at the end of [train]: [zip] pairs the two parameter
    lists, each paired target entry is overwritten in place. *)
Fixpoint soft_update (tau : R) (params target : list R) : list R :=
  match params, target with
  | p :: params', t :: target' =>
      (tau * p + (1 - tau) * t) :: soft_update tau params' target'
  | _, _ => target
  end.

(** [r_sample.shape[1]]. *)
Definition shape1 (t : list (list R)) : nat :=
  match t with row :: _ => length row | [] => 0%nat end.

(** The closure [dual_func] of [train]: [r_sample] and [delta] are captured,
    [beta] is broadcast along the rows. *)
Definition dual_func (delta : R) (r_sample r : list (list R)) (beta : list R)
    : list R :=
  let size := shape1 r_sample in
  zip_with (λ row b,
      - b * (logsumexp ((λ x, - x / b) <$> row) - ln (INR size)) - b * delta)
    r beta.

(** The random draws of one call of [train]. *)
Record Draws : Type := mkDraws {
  ind : list nat;
  eps_r : nat → R;
  eps_sample : nat → nat → R;
  eps_next : nat → nat → R;
  eps_pi : nat → nat → R }.

Section Trainer.
Context `{Torch} `{PyFloat}.

(** The attributes of the agent. [delta], [reward], [beta] and their
    optimizers exist in robust mode only and are read in robust mode only;
    [log_alpha], [target_entropy] and [alpha_optim] likewise in adaptive
    mode. *)
Record SAC_countinuous : Type := mkSAC {
  cfg : Config;
  delta : R;
  tau : R;
  alpha : R;
  actor : list R;
  actor_optimizer : opt_state;
  q_critic : list R;
  q_critic_optimizer : opt_state;
  q_critic_target : list R;
  reward : list R;
  reward_optimizer : opt_state;
  beta : list R;
  beta_optimizer : opt_state;
  replay_buffer : Replay.ReplayBuffer;
  target_entropy : R;
  log_alpha : R;
  alpha_optim : opt_state }.

Definition set_reward (ag : SAC_countinuous) (p : opt_state * list R) :=
  mkSAC (cfg ag) (delta ag) (tau ag) (alpha ag) (actor ag) (actor_optimizer ag)
    (q_critic ag) (q_critic_optimizer ag) (q_critic_target ag)
    p.2 p.1 (beta ag) (beta_optimizer ag) (replay_buffer ag)
    (target_entropy ag) (log_alpha ag) (alpha_optim ag).

Definition set_beta (ag : SAC_countinuous) (p : opt_state * list R) :=
  mkSAC (cfg ag) (delta ag) (tau ag) (alpha ag) (actor ag) (actor_optimizer ag)
    (q_critic ag) (q_critic_optimizer ag) (q_critic_target ag)
    (reward ag) (reward_optimizer ag) p.2 p.1 (replay_buffer ag)
    (target_entropy ag) (log_alpha ag) (alpha_optim ag).

Definition set_q_critic (ag : SAC_countinuous) (p : opt_state * list R) :=
  mkSAC (cfg ag) (delta ag) (tau ag) (alpha ag) (actor ag) (actor_optimizer ag)
    p.2 p.1 (q_critic_target ag)
    (reward ag) (reward_optimizer ag) (beta ag) (beta_optimizer ag)
    (replay_buffer ag) (target_entropy ag) (log_alpha ag) (alpha_optim ag).

Definition set_actor (ag : SAC_countinuous) (p : opt_state * list R) :=
  mkSAC (cfg ag) (delta ag) (tau ag) (alpha ag) p.2 p.1
    (q_critic ag) (q_critic_optimizer ag) (q_critic_target ag)
    (reward ag) (reward_optimizer ag) (beta ag) (beta_optimizer ag)
    (replay_buffer ag) (target_entropy ag) (log_alpha ag) (alpha_optim ag).

Definition set_log_alpha (ag : SAC_countinuous) (p : opt_state * R) :=
  mkSAC (cfg ag) (delta ag) (tau ag) (exp p.2) (actor ag) (actor_optimizer ag)
    (q_critic ag) (q_critic_optimizer ag) (q_critic_target ag)
    (reward ag) (reward_optimizer ag) (beta ag) (beta_optimizer ag)
    (replay_buffer ag) (target_entropy ag) p.2 p.1.

Definition set_q_critic_target (ag : SAC_countinuous) (target : list R) :=
  mkSAC (cfg ag) (delta ag) (tau ag) (alpha ag) (actor ag) (actor_optimizer ag)
    (q_critic ag) (q_critic_optimizer ag) target
    (reward ag) (reward_optimizer ag) (beta ag) (beta_optimizer ag)
    (replay_buffer ag) (target_entropy ag) (log_alpha ag) (alpha_optim ag).

Definition set_replay_buffer (ag : SAC_countinuous) (b : Replay.ReplayBuffer) :=
  mkSAC (cfg ag) (delta ag) (tau ag) (alpha ag) (actor ag) (actor_optimizer ag)
    (q_critic ag) (q_critic_optimizer ag) (q_critic_target ag)
    (reward ag) (reward_optimizer ag) (beta ag) (beta_optimizer ag)
    b (target_entropy ag) (log_alpha ag) (alpha_optim ag).

(** The attributes that the reward regression and the dual loop leave
    alone. *)
Definition same_nets (ag ag' : SAC_countinuous) : Prop :=
  cfg ag' = cfg ag ∧ delta ag' = delta ag ∧ tau ag' = tau ag
  ∧ alpha ag' = alpha ag ∧ actor ag' = actor ag
  ∧ actor_optimizer ag' = actor_optimizer ag
  ∧ q_critic ag' = q_critic ag
  ∧ q_critic_optimizer ag' = q_critic_optimizer ag
  ∧ q_critic_target ag' = q_critic_target ag
  ∧ replay_buffer ag' = replay_buffer ag
  ∧ target_entropy ag' = target_entropy ag
  ∧ log_alpha ag' = log_alpha ag ∧ alpha_optim ag' = alpha_optim ag.

(** [SAC_countinuous.__init__]. The freshly initialised network parameters
    [theta0], [phi0] and [psi0] are arguments; the target critic is a deep
    copy of the critic. *)
Definition init (kwargs : Config) (theta0 phi0 psi0 : list R)
    : result SAC_countinuous :=
  delta ← (if robust kwargs
           then compute_delta (train_std kwargs) (eval_std kwargs)
           else mret 0);
  mret {| cfg := kwargs;
          delta := delta;
          tau := 0.005;
          alpha := alpha0 kwargs;
          actor := theta0;
          actor_optimizer := opt_init (a_lr kwargs);
          q_critic := phi0;
          q_critic_optimizer := opt_init (c_lr kwargs);
          q_critic_target := phi0;
          reward := psi0;
          reward_optimizer := opt_init (r_lr kwargs);
          beta := replicate (batch_size kwargs) 0;
          beta_optimizer := opt_init (b_lr kwargs);
          replay_buffer :=
            Replay.init (state_dim kwargs) (action_dim kwargs) (10 ^ 6);
          target_entropy := - INR (action_dim kwargs);
          log_alpha := ln (alpha0 kwargs);
          alpha_optim := opt_init (c_lr kwargs) |}.

(** [select_action]: the state becomes a batch of one row, the action of
    that row is returned. *)
Definition select_action (ag : SAC_countinuous) (state : list R)
    (deterministic : bool) (noise : nat → nat → R) : result (list R) :=
  let '(a, _) := Actor.forward (actor ag) [state] deterministic false noise in
  match a !! 0%nat with Some row => Ok row | None => Raise IndexError end.

(** *** The blocks of [train] *)

(** Update of the reward net: the loss of the prediction against the
    sampled rewards, as a function of the reward parameters. *)
Definition r_loss (ag : SAC_countinuous) (B : Replay.Batch) (d : Draws)
    (psi : list R) : R :=
  from_result 0
    (r_pred ← Reward.forward psi (rtype (cfg ag)) (Replay.b_s B) (Replay.b_a B)
                (eps_r d);
     mret (mse_loss r_pred (Replay.b_r B))).

(** The loss of one pass of the dual loop, as a function of [self.beta]:
    [opt_loss.sum()] with [opt_loss = -dual_func(r_sample, exp(beta))]. *)
Definition opt_loss (ag : SAC_countinuous) (r_sample : list (list R))
    (beta : list R) : R :=
  Rsum (Ropp <$> dual_func (delta ag) r_sample r_sample (exp <$> beta)).

Definition dual_step (r_sample : list (list R)) (ag : SAC_countinuous)
    : SAC_countinuous :=
  set_beta ag (opt_step (beta_optimizer ag) (opt_loss ag r_sample) (beta ag)).

(** The robust block: reward regression, 50 reward samples per batch row,
    the dual loop and the robust reward [r_opt]. *)
Definition robust_block (ag : SAC_countinuous) (B : Replay.Batch) (d : Draws)
    : result (SAC_countinuous * list R) :=
  r_pred ← Reward.forward (reward ag) (rtype (cfg ag))
             (Replay.b_s B) (Replay.b_a B) (eps_r d);
  let ag1 :=
    set_reward ag (opt_step (reward_optimizer ag) (r_loss ag B d) (reward ag)) in
  r_sample ← Reward.sample (reward ag1) (rtype (cfg ag1))
               (Replay.b_s B) (Replay.b_a B) 50 (eps_sample d);
  let ag2 := for_range 10 (dual_step r_sample) ag1 in
  let r_opt := dual_func (delta ag2) r_sample r_sample (exp <$> beta ag2) in
  mret (ag2, r_opt).

(** The target of the critics, computed under [torch.no_grad()]. [r_opt]
    is the local of that name, bound in robust mode only. *)
Definition critic_target (ag : SAC_countinuous) (B : Replay.Batch)
    (r_opt : option (list R)) (d : Draws) : result (list R) :=
  let '(a_next, log_pi_a_next) :=
    Actor.forward (actor ag) (Replay.b_s_next B) false true (eps_next d) in
  let '(target_Q1, target_Q2) :=
    Double_Q_Critic.forward (q_critic_target ag) (Replay.b_s_next B) a_next in
  let target_Q := zip_with Rmin target_Q1 target_Q2 in
  log_pi ← match log_pi_a_next with
           | Some l => Ok l
           | None => Raise TypeError
           end;
  let boot :=
    zip_with Rmult
      ((λ x : bool, bool_to_R (negb x) * gamma (cfg ag)) <$> Replay.b_dw B)
      (zip_with Rminus target_Q (Rmult (alpha ag) <$> log_pi)) in
  if robust (cfg ag) then
    r_opt' ← read_local r_opt;
    mret (zip_with Rplus r_opt' boot)
  else
    mret (zip_with Rplus (Replay.b_r B) boot).

(** The critic loss as a function of the critic parameters; the target is
    a constant of the loss. *)
Definition q_loss (B : Replay.Batch) (target_Q : list R) (phi : list R) : R :=
  let '(current_Q1, current_Q2) :=
    Double_Q_Critic.forward phi (Replay.b_s B) (Replay.b_a B) in
  mse_loss current_Q1 target_Q + mse_loss current_Q2 target_Q.

Definition update_critic (ag : SAC_countinuous) (B : Replay.Batch)
    (target_Q : list R) : SAC_countinuous :=
  set_q_critic ag
    (opt_step (q_critic_optimizer ag) (q_loss B target_Q) (q_critic ag)).

(** The actor loss as a function of the actor parameters; the critic is
    frozen. *)
Definition a_loss (ag : SAC_countinuous) (B : Replay.Batch) (d : Draws)
    (theta : list R) : R :=
  let '(a, log_pi_a) :=
    Actor.forward theta (Replay.b_s B) false true (eps_pi d) in
  let '(current_Q1, current_Q2) :=
    Double_Q_Critic.forward (q_critic ag) (Replay.b_s B) a in
  let Q := zip_with Rmin current_Q1 current_Q2 in
  mean (zip_with Rminus (Rmult (alpha ag) <$> default [] log_pi_a) Q).

Definition update_actor (ag : SAC_countinuous) (B : Replay.Batch) (d : Draws)
    : SAC_countinuous * option (list R) :=
  let log_pi_a :=
    (Actor.forward (actor ag) (Replay.b_s B) false true (eps_pi d)).2 in
  (set_actor ag (opt_step (actor_optimizer ag) (a_loss ag B d) (actor ag)),
   log_pi_a).

(** The loss of the entropy coefficient as a function of [log_alpha]; the
    log-probabilities are detached. *)
Definition alpha_loss (ag : SAC_countinuous) (log_pi_a : list R)
    (p : list R) : R :=
  - mean ((λ x, hd 0 p * (x + target_entropy ag)) <$> log_pi_a).

Definition update_alpha (ag : SAC_countinuous) (log_pi_a : option (list R))
    : result SAC_countinuous :=
  log_pi ← match log_pi_a with Some l => Ok l | None => Raise TypeError end;
  let '(st, p) :=
    opt_step (alpha_optim ag) (alpha_loss ag log_pi) [log_alpha ag] in
  mret (set_log_alpha ag (st, hd 0 p)).

Definition update_target (ag : SAC_countinuous) : SAC_countinuous :=
  set_q_critic_target ag
    (soft_update (tau ag) (q_critic ag) (q_critic_target ag)).

(** [SAC_countinuous.train]. *)
Definition train (ag : SAC_countinuous) (d : Draws) : result SAC_countinuous :=
  B ← Replay.sample_with (replay_buffer ag) (batch_size (cfg ag)) (ind d);
  '(ag1, r_opt) ←
    (if robust (cfg ag)
     then '(ag', r_opt) ← robust_block ag B d; mret (ag', Some r_opt)
     else mret (ag, None));
  target_Q ← critic_target ag1 B r_opt d;
  let ag2 := update_critic ag1 B target_Q in
  let '(ag3, log_pi_a) := update_actor ag2 B d in
  ag4 ← (if adaptive_alpha (cfg ag3)
         then update_alpha ag3 log_pi_a
         else mret ag3);
  mret (update_target ag4).

End Trainer.
End Agent.

(** ** A small instance *)

(** Concrete data on which the model can be run: identity networks, a
    critic that sums its input, and an optimizer that counts its calls and
    leaves the parameters where they are. *)
Module Toy.
Import Agent.
Local Open Scope R_scope.

Definition toy_torch : Torch := {|
  a_net := λ _ x, x;
  mu_layer := λ _ x, x;
  log_std_layer := λ _ x, x;
  Q_1 := λ _ sa, Tensor.Rsum sa;
  Q_2 := λ _ _, 0;
  rnet := λ _ x, x;
  r_mu_layer := λ _ x, Tensor.Rsum x;
  r_log_std_layer := λ _ _, 0;
  r_layer := λ _ x, x;
  opt_state := nat;
  opt_init := λ _, 0%nat;
  opt_step := λ st _ p, (S st, p) |}.

Definition x1 : Replay.Transition := Replay.mkTransition [1] [0.5] 1 [2] false.
Definition x2 : Replay.Transition := Replay.mkTransition [2] [-0.5] 0 [3] true.
Definition x3 : Replay.Transition := Replay.mkTransition [3] [0.25] 2 [4] false.

(** A full buffer of capacity 2 holding [x1] and [x2]. *)
Definition toy_buffer : Replay.ReplayBuffer :=
  Replay.mkReplayBuffer 2 0 2 [[1]; [2]] [[0.5]; [-0.5]] [1; 0] [[2]; [3]]
    [false; true].

Definition toy_cfg (robust : bool) : Config :=
  mkConfig 1 1 1 0.99 0.12 false 0.001 0.001 0.001 0.001 robust 1 2
    "continuous".

Definition toy_agent (robust : bool) : @SAC_countinuous toy_torch :=
  @mkSAC toy_torch (toy_cfg robust) 0.375 0.005 0.12 [] 0%nat [] 0%nat []
    [] 0%nat [0] 0%nat toy_buffer (-1) (ln 0.12) 0%nat.

Definition toy_draws : Draws :=
  mkDraws [1%nat] (λ _, 0) (λ _ _, 0) (λ _ _, 0) (λ _ _, 0).

(** The same agent in adaptive mode. *)
Definition toy_cfg_adaptive : Config :=
  mkConfig 1 1 1 0.99 0.12 true 0.001 0.001 0.001 0.001 false 1 2
    "continuous".

Definition toy_agent_adaptive : @SAC_countinuous toy_torch :=
  @mkSAC toy_torch toy_cfg_adaptive 0 0.005 0.12 [] 0%nat [] 0%nat []
    [] 0%nat [0] 0%nat toy_buffer (-1) (ln 0.12) 0%nat.

(** Robust keyword arguments with equal standard deviations. *)
Definition toy_cfg_equal : Config :=
  mkConfig 1 1 1 0.99 0.12 false 0.001 0.001 0.001 0.001 true 1 1
    "continuous".

(** An arithmetic whose subtraction comes out too low by [1/8]. *)
Definition low_float : PyFloat := {|
  float_pow2 := λ x, Some (x ^ 2);
  float_div := Rdiv;
  float_log := ln;
  float_add := Rplus;
  float_sub := λ x y, x - y - 1 / 8;
  float_mul := Rmult |}.

End Toy.

(** ** Reward shaping and the noisy environment *)

Global Instance Rle_decision (x y : R) : Decision (x <= y)%R := Rle_dec x y.

Module Shaping.
Local Open Scope R_scope.

(** [Reward_adapter]: the reward engineering selected by the environment
    index. *)
Definition Reward_adapter (r : R) (EnvIdex : Z) : R :=
  if decide (EnvIdex = 0%Z) then (r + 8) / 8
  else if decide (EnvIdex = 1%Z) then
    (if decide (r <= -100) then -10 else r)
  else if decide (EnvIdex = 4%Z ∨ EnvIdex = 5%Z) then
    (if decide (r <= -100) then -1 else r)
  else r.

End Shaping.

(** The environment of gymnasium is not defined in [SAC.py]: its state, its
    [step] and [reset] functions and its episode limit are the fields of
    the class [Gym]. A step returns the observation, the reward and the
    flags [terminated] and [truncated]; [info] is not read by the code. *)
Class Gym : Type := {
  env_state : Type;
  env_step : env_state → list R → env_state * (list R * R * bool * bool);
  env_reset : env_state → Z → env_state * list R }.

Module Noise.
Section Wrapper.
Context `{Gym}.

(** [NoiseReward.step]: the reward of the wrapped environment goes through
    [func]. *)
Definition NoiseReward_step (func : R → R) (e : env_state) (action : list R)
    : env_state * (list R * R * bool * bool) :=
  let '(e', (obs, reward, dw, tr)) := env_step e action in
  let modified_reward := func reward in
  (e', (obs, modified_reward, dw, tr)).

End Wrapper.
End Noise.

(** ** The training loop of [main] *)

Module Driver.
Import Agent.
Local Open Scope R_scope.

(** The options that the loop reads. *)
Record Opt : Type := mkOpt {
  EnvIdex : Z;
  max_action : R;
  max_e_steps : Z;
  update_every : Z;
  eval_interval : Z;
  Max_train_steps : Z;
  train_noise : bool }.

(** [x % y] on Python integers: the sign follows the divisor, a zero
    divisor raises. *)
Definition py_modZ (x y : Z) : result Z :=
  if decide (y = 0%Z) then Raise ZeroDivisionError else Ok (x mod y)%Z.

(** The reward type that [main] derives from the environment index. *)
Definition rtype_of (EnvIdex : Z) : string :=
  if decide (EnvIdex ∈ [0; 1; 2; 3; 5]%Z) then "continuous" else "discrete".

(** The random draws of one pass of the inner loop: the action of
    [env.action_space.sample()], the noise of [select_action], the draw of
    [train_dist.sample()] and the draws of the calls of [train]. *)
Record StepInput : Type := mkStepInput {
  action_sample : list R;
  act_noise : nat → nat → R;
  reward_noise : R;
  train_draws : nat → Draws }.

Section Loop.
Context `{Torch} `{Gym}.

(** The attributes [a_lr] and [c_lr] of the agent are entries of its
    keyword arguments; this writes both. *)
Definition set_lr (ag : SAC_countinuous) (a c : R) : SAC_countinuous :=
  mkSAC
    (mkConfig (state_dim (cfg ag)) (action_dim (cfg ag)) (batch_size (cfg ag))
       (gamma (cfg ag)) (alpha0 (cfg ag)) (adaptive_alpha (cfg ag))
       a c (r_lr (cfg ag)) (b_lr (cfg ag)) (robust (cfg ag))
       (train_std (cfg ag)) (eval_std (cfg ag)) (rtype (cfg ag)))
    (delta ag) (tau ag) (alpha ag) (actor ag) (actor_optimizer ag)
    (q_critic ag) (q_critic_optimizer ag) (q_critic_target ag)
    (reward ag) (reward_optimizer ag) (beta ag) (beta_optimizer ag)
    (replay_buffer ag) (target_entropy ag) (log_alpha ag) (alpha_optim ag).

(** [for _ in range(n): agent.train()], call number [k] of the pass using
    the draws [draws k]. *)
Fixpoint train_times (n : nat) (k : nat) (draws : nat → Draws)
    (ag : SAC_countinuous) : result SAC_countinuous :=
  match n with
  | O => Ok ag
  | S n' => ag' ← train ag (draws k); train_times n' (S k) draws ag'
  end.

(** The variables of the loop. *)
Record Loop : Type := mkLoop {
  agent : SAC_countinuous;
  env : env_state;
  state : list R;
  total_steps : Z;
  total_episode : Z;
  env_seed : Z;
  done : bool }.

(** The head of the outer loop body: a new episode. *)
Definition episode_reset (st : Loop) : Loop :=
  let '(e', state') := env_reset (env st) (env_seed st) in
  mkLoop (agent st) e' state' (total_steps st) (total_episode st + 1)
    (env_seed st + 1) false.

(** The choice of the action: random exploration during the first
    [10 * max_e_steps] steps, the policy afterwards. The result is the pair
    of the agent action and the environment action. *)
Definition choose_action (opt : Opt) (st : Loop) (inp : StepInput)
    : result (list R * list R) :=
  if decide (total_steps st < 10 * max_e_steps opt)%Z then
    let action_env := action_sample inp in
    let action_agent :=
      Adapter.Action_adapter_reverse action_env (max_action opt) in
    mret (action_agent, action_env)
  else
    action_agent ← select_action (agent st) (state st) false (act_noise inp);
    let action_env := Adapter.Action_adapter action_agent (max_action opt) in
    mret (action_agent, action_env).

(** The step function of the training environment: wrapped by
    [NoiseReward] when [train_noise] is set. *)
Definition train_env_step (opt : Opt) (inp : StepInput)
    : env_state → list R → env_state * (list R * R * bool * bool) :=
  if train_noise opt
  then Noise.NoiseReward_step (λ r, r + reward_noise inp)
  else env_step.

(** The training rounds and the decay of the learning-rate attributes
    after a step, for the incremented step counter [steps]. *)
Definition maybe_train (opt : Opt) (steps : Z) (inp : StepInput)
    (ag : SAC_countinuous) : result SAC_countinuous :=
  if decide (steps >= 10 * max_e_steps opt)%Z then
    m ← py_modZ steps (update_every opt);
    if decide (m = 0%Z) then
      ag' ← train_times (Z.to_nat (update_every opt)) 0 (train_draws inp) ag;
      mret (set_lr ag' (a_lr (cfg ag') * 0.9) (c_lr (cfg ag') * 0.9))
    else mret ag
  else mret ag.

(** One pass of the inner loop. The [print] of the last statement is not
    modelled, its condition is evaluated. *)
Definition step_body (opt : Opt) (st : Loop) (inp : StepInput) : result Loop :=
  '(action_agent, action_env) ← choose_action opt st inp;
  let '(e', (next_state, reward, dw, tr)) :=
    train_env_step opt inp (env st) action_env in
  let reward := Shaping.Reward_adapter reward (EnvIdex opt) in
  let done := dw || tr in
  buf ← Replay.add (replay_buffer (agent st))
           (Replay.mkTransition (state st) action_agent reward next_state dw);
  let ag := set_replay_buffer (agent st) buf in
  let steps := (total_steps st + 1)%Z in
  ag' ← maybe_train opt steps inp ag;
  _ ← py_modZ steps (eval_interval opt);
  mret (mkLoop ag' e' next_state steps (total_episode st) (env_seed st) done).

(** The two nested loops, started at the head of the inner loop with [done]
    false. Every pass of the inner loop consumes one entry of [inputs]; the
    result is [None] when the entries run out before the loops end. *)
Fixpoint inner_loop (opt : Opt) (inputs : list StepInput) (st : Loop)
    : result (option Loop) :=
  match inputs with
  | [] => Ok None
  | inp :: inputs' =>
      st1 ← step_body opt st inp;
      if done st1 then
        if decide (total_steps st1 < Max_train_steps opt)%Z
        then inner_loop opt inputs' (episode_reset st1)
        else Ok (Some st1)
      else inner_loop opt inputs' st1
  end.

(** The training branch of [main] from [total_steps = 0] up to the end of
    the outer loop. *)
Definition training_loop (opt : Opt) (inputs : list StepInput)
    (ag : SAC_countinuous) (e : env_state) (seed : Z) : result (option Loop) :=
  let st0 := mkLoop ag e [] 0 0 seed false in
  if decide (total_steps st0 < Max_train_steps opt)%Z
  then inner_loop opt inputs (episode_reset st0)
  else Ok (Some st0).

(** What every pass of the loop keeps: the buffer is well formed and holds
    one transition per step taken, up to its capacity. *)
Definition loop_inv (st : Loop) : Prop :=
  Replay.wf (replay_buffer (agent st))
  ∧ (0 ≤ total_steps st)%Z
  ∧ Replay.size (replay_buffer (agent st))
    = Nat.min (Z.to_nat (total_steps st))
        (Replay.max_size (replay_buffer (agent st))).

(** The index vectors that [torch.randint] can return in the calls of
    [train] of pass number [j], counted from a loop state with [t0] steps:
    the buffer then holds [min (t0 + j + 1) C] transitions. *)
Definition draws_in_range (C t0 : nat) (inputs : list StepInput) : Prop :=
  ∀ j inp k, inputs !! j = Some inp →
    Forall (λ i, (i < Nat.min (t0 + j + 1) C)%nat) (ind (train_draws inp k)).

End Loop.
End Driver.

(** ** Checkpoints *)

Module Checkpoint.
Import Agent.

(** ["./model/{}_actor{}.pth".format(EnvName, timestep)] and its
    counterpart for the critic; the time step is an integer, printed in
    decimal. *)
Definition actor_path (EnvName : string) (timestep : Z) : string :=
  "./model/" +:+ (EnvName +:+ ("_actor" +:+ (pretty timestep +:+ ".pth"))).

Definition q_critic_path (EnvName : string) (timestep : Z) : string :=
  "./model/" +:+ (EnvName +:+ ("_q_critic" +:+ (pretty timestep +:+ ".pth"))).

(** The two ways in which [load] fails: [torch.load] finds no file at the
    path, or [load_state_dict] is given a state that does not fit the
    network (here: a parameter vector of another length). *)
Inductive load_error : Type :=
  | FileNotFoundError (path : string)
  | StateDictMismatch (path : string).

Section SaveLoad.
Context `{Torch}.

(** [SAC_countinuous.save]. The files are a map from paths to the saved
    parameter vectors; the directory [./model] is taken to exist, as
    [main] creates it before it constructs the agent. *)
Definition save (ag : SAC_countinuous) (files : gmap string (list R))
    (EnvName : string) (timestep : Z) : gmap string (list R) :=
  <[q_critic_path EnvName timestep := q_critic ag]>
    (<[actor_path EnvName timestep := actor ag]> files).

(** [module.load_state_dict(torch.load(path))] for the parameter vector
    [params] of the module. *)
Definition load_state_dict (files : gmap string (list R)) (path : string)
    (params : list R) : load_error + list R :=
  match files !! path with
  | None => inl (FileNotFoundError path)
  | Some saved =>
      if decide (length saved = length params) then inr saved
      else inl (StateDictMismatch path)
  end.

(** [SAC_countinuous.load]. *)
Definition load (ag : SAC_countinuous) (files : gmap string (list R))
    (EnvName : string) (timestep : Z) : load_error + SAC_countinuous :=
  match load_state_dict files (actor_path EnvName timestep) (actor ag) with
  | inl e => inl e
  | inr theta =>
      let ag1 := set_actor ag (actor_optimizer ag, theta) in
      match load_state_dict files (q_critic_path EnvName timestep)
              (q_critic ag1) with
      | inl e => inl e
      | inr phi => inr (set_q_critic ag1 (q_critic_optimizer ag1, phi))
      end
  end.

End SaveLoad.
End Checkpoint.

(** A small environment and loop configuration: every episode ends after
    one step, training starts at once and runs after every step. *)
Module ToyLoop.
Import Agent Driver.
Local Open Scope R_scope.

Definition toy_gym : Gym := {|
  env_state := nat;
  env_step := λ e action, (S e, ([INR e], Tensor.Rsum action, false, true));
  env_reset := λ e seed, (e, [0]) |}.

Definition toy_opt : Opt := mkOpt 1 2 0 1 1 2 true.

Definition toy_input : StepInput :=
  mkStepInput [1] (λ _ _, 0) 0.5 (λ _, mkDraws [0%nat] (λ _, 0) (λ _ _, 0)
                                          (λ _ _, 0) (λ _ _, 0)).

(** A new agent with a replay buffer of capacity 2. *)
Definition toy_new_agent : @SAC_countinuous Toy.toy_torch :=
  @mkSAC Toy.toy_torch (Toy.toy_cfg false) 0 0.005 0.12 [] 0%nat [] 0%nat []
    [] 0%nat [0] 0%nat (Replay.init 1 1 2) (-1) (ln 0.12) 0%nat.

Definition toy_loop : @Loop Toy.toy_torch toy_gym :=
  @mkLoop Toy.toy_torch toy_gym toy_new_agent 0%nat [0] 0 0 0 false.

End ToyLoop.

(** * Properties *)

(** ** The replay buffer *)

Module ReplayProofs.
Import Replay.

Lemma rows5_insert i x ss aa rr nn dd :
  rows5 (<[i:=t_s x]> ss) (<[i:=t_a x]> aa) (<[i:=t_r x]> rr)
        (<[i:=t_s_next x]> nn) (<[i:=t_dw x]> dd)
  = <[i:=x]> (rows5 ss aa rr nn dd).
Proof.
  revert ss aa rr nn dd.
  induction i as [|i IH]; intros [|? ss] [|? aa] [|? rr] [|? nn] [|? dd];
    simpl; try reflexivity.
  - by destruct x.
  - by rewrite IH.
Qed.

Lemma length_rows5 n ss aa rr nn dd :
  length ss = n → length aa = n → length rr = n → length nn = n →
  length dd = n → length (rows5 ss aa rr nn dd) = n.
Proof.
  revert ss aa rr nn dd.
  induction n as [|n IH]; intros [|? ss] [|? aa] [|? rr] [|? nn] [|? dd];
    simpl; intros; try done.
  f_equal. apply IH; lia.
Qed.

Lemma rows5_replicate n x y z u v :
  rows5 (replicate n x) (replicate n y) (replicate n z) (replicate n u)
        (replicate n v) = replicate n (mkTransition x y z u v).
Proof. induction n as [|n IH]; simpl; [done|by rewrite IH]. Qed.

Lemma length_rows b : wf b → length (rows b) = max_size b.
Proof. intros []. by apply length_rows5. Qed.

(** Overwriting the slot under the cursor and advancing the cursor drops
    the oldest entry of the circular reading and appends the new one. *)
Lemma rotate_write {A} (l : list A) p x :
  p < length l →
  rotate ((p + 1) mod length l) (<[p:=x]> l) = drop 1 (rotate p l) ++ [x].
Proof.
  intros Hp. unfold rotate. rewrite length_insert, Nat.Div0.mod_mod.
  rewrite (Nat.mod_small p) by done.
  rewrite drop_app_le by (rewrite length_drop; lia).
  rewrite drop_drop, insert_take_drop by done.
  destruct (decide (p + 1 < length l)) as [Hlt|Hge].
  - rewrite (Nat.mod_small (p + 1)) by done.
    rewrite drop_app_ge, take_app_ge by (rewrite length_take; lia).
    rewrite length_take, Nat.min_l by lia.
    replace (p + 1 - p) with 1 by lia. simpl. rewrite drop_0, take_0.
    by rewrite Nat.add_1_r, <-app_assoc.
  - replace (p + 1) with (length l) by lia.
    rewrite Nat.Div0.mod_same. rewrite drop_0, take_0, app_nil_r.
    rewrite (drop_ge l (length l)) by lia.
    rewrite (drop_ge l (S p)) by lia. done.
Qed.

Lemma add_step b x :
  wf b →
  ∃ b', add b x = Ok b' ∧ wf b' ∧ max_size b' = max_size b
        ∧ size b' = Nat.min (size b + 1) (max_size b)
        ∧ ptr b' = (ptr b + 1) mod max_size b
        ∧ rows b' = <[ptr b:=x]> (rows b).
Proof.
  intros [Hpos Hptr Hsize Hs Ha Hr Hn Hd].
  unfold add, setitem, py_mod.
  rewrite Hs, Ha, Hr, Hn, Hd.
  repeat (case_decide; try lia; simpl).
  eexists; split; [reflexivity|].
  split; [|repeat split; simpl; try done; apply rows5_insert].
  constructor; simpl; rewrite ?length_insert; try done.
  - by apply Nat.mod_upper_bound, Nat.neq_0_lt_0.
  - lia.
Qed.

Lemma add_all_from pad xs : ∀ hist b,
  wf b →
  length pad = max_size b →
  size b = Nat.min (length hist) (max_size b) →
  ptr b = length hist mod max_size b →
  rotate (ptr b) (rows b) = drop (length hist) (pad ++ hist) →
  ∃ b', add_all b xs = Ok b' ∧ wf b' ∧ max_size b' = max_size b
        ∧ size b' = Nat.min (length (hist ++ xs)) (max_size b)
        ∧ ptr b' = length (hist ++ xs) mod max_size b
        ∧ rotate (ptr b') (rows b')
          = drop (length (hist ++ xs)) (pad ++ hist ++ xs).
Proof.
  induction xs as [|x xs IH]; intros hist b Hwf Hpad Hsize Hptr Hrot.
  - exists b. rewrite app_nil_r. by simpl.
  - destruct (add_step b x Hwf) as (b1 & Hadd & Hwf1 & Hmax & Hsz & Hp & Hrows).
    destruct (IH (hist ++ [x]) b1) as (b' & Hall & Hwf' & Hmax' & Hsz' & Hp' & Hrot').
    + done.
    + by rewrite Hmax.
    + rewrite Hsz, Hsize, Hmax, length_app. simpl. lia.
    + rewrite Hp, Hptr, Hmax, length_app. simpl.
      by rewrite Nat.Div0.add_mod_idemp_l.
    + rewrite Hp, Hrows, <-(length_rows b) by done.
      rewrite rotate_write by (rewrite length_rows by done; apply Hwf).
      rewrite Hrot, drop_drop, length_app. simpl.
      rewrite (app_assoc pad hist [x]).
      pose proof (wf_pos _ Hwf).
      rewrite (drop_app_le (pad ++ hist)) by (rewrite length_app; lia).
      done.
    + exists b'. simpl. rewrite Hadd. simpl.
      rewrite <-!(app_assoc hist [x] xs) in *. simpl in *.
      rewrite Hmax in *. done.
Qed.

Lemma init_wf sd ad C : 0 < C → wf (init sd ad C).
Proof.
  intros. constructor; simpl; rewrite ?length_replicate; try done. lia.
Qed.

Lemma rows_init sd ad C : rows (init sd ad C) = replicate C (zero_row sd ad).
Proof. apply rows5_replicate. Qed.

(** C5. On a buffer of capacity [C > 0], every [add] succeeds, keeps
    [size <= C], sets [size] to [min (size + 1) C] and advances the cursor
    modulo [C]. After any sequence [xs] of insertions into a new buffer,
    [size = min (length xs) C], the cursor is [length xs mod C], and the
    slots read circularly from the cursor are the last [C] entries of the
    initial zero rows followed by [xs]; once [C <= length xs] these are
    exactly the [C] most recent insertions in insertion order, the slot
    under the cursor (the next to be overwritten) holding the oldest. *)
Theorem add_circular (sd ad C : nat) :
  0 < C →
  (∀ b x, wf b → max_size b = C →
     ∃ b', add b x = Ok b' ∧ wf b' ∧ max_size b' = C ∧ size b' ≤ C
           ∧ size b' = Nat.min (size b + 1) C
           ∧ ptr b' = (ptr b + 1) mod C
           ∧ rows b' = <[ptr b:=x]> (rows b))
  ∧ (∀ xs, ∃ b,
       add_all (init sd ad C) xs = Ok b ∧ wf b ∧ max_size b = C
       ∧ size b ≤ C
       ∧ size b = Nat.min (length xs) C
       ∧ ptr b = length xs mod C
       ∧ rotate (ptr b) (rows b)
         = drop (length xs) (replicate C (zero_row sd ad) ++ xs)
       ∧ (C ≤ length xs →
            size b = C
            ∧ rotate (ptr b) (rows b) = drop (length xs - C) xs
            ∧ rows b !! ptr b = xs !! (length xs - C))).
Proof.
  intros HC. split.
  - intros b x Hwf Hmax.
    destruct (add_step b x Hwf) as (b' & Hadd & Hwf' & Hmax' & Hsz & Hp & Hrows).
    exists b'. rewrite Hmax in *. split_and!; try done. lia.
  - intros xs.
    destruct (add_all_from (replicate C (zero_row sd ad)) xs [] (init sd ad C))
      as (b & Hall & Hwf & Hmax & Hsz & Hp & Hrot); simpl.
    + by apply init_wf.
    + by rewrite length_replicate.
    + lia.
    + by rewrite Nat.Div0.mod_0_l.
    + rewrite rows_init, app_nil_r. unfold rotate.
      rewrite length_replicate, Nat.Div0.mod_0_l. simpl.
      by rewrite app_nil_r.
    + simpl in *. exists b. split_and!; try done; try lia.
      intros Hfull.
      assert (Hlast : rotate (ptr b) (rows b) = drop (length xs - C) xs).
      { rewrite Hrot, drop_app_ge by (rewrite length_replicate; lia).
        by rewrite length_replicate. }
      split_and!; [lia|done|].
      assert (Hlk : rotate (ptr b) (rows b) !! 0 = xs !! (length xs - C)).
      { rewrite Hlast, lookup_drop. f_equal. lia. }
      rewrite lookup_rotate_r in Hlk
        by (rewrite length_rows by done; lia).
      unfold rotate_nat_add in Hlk.
      rewrite length_rows, Hmax in Hlk by done.
      rewrite Hp. rewrite <-Hlk. f_equal.
      rewrite Hp. rewrite Z.add_0_r, <-Nat2Z.inj_mod, Nat2Z.id.
      by rewrite Nat.Div0.mod_mod.
Qed.

(** *** Sampling *)

Lemma rows5_lookup i ss aa rr nn dd x y z u v :
  ss !! i = Some x → aa !! i = Some y → rr !! i = Some z →
  nn !! i = Some u → dd !! i = Some v →
  rows5 ss aa rr nn dd !! i = Some (mkTransition x y z u v).
Proof.
  revert ss aa rr nn dd.
  induction i as [|i IH]; intros [|? ss] [|? aa] [|? rr] [|? nn] [|? dd];
    simpl; try done.
  - by intros [= ->] [= ->] [= ->] [= ->] [= ->].
  - apply IH.
Qed.

Lemma getitems_ok {A} (arr : list A) ind :
  Forall (λ i, i < length arr) ind →
  ∃ xs, getitems arr ind = Ok xs ∧ length xs = length ind
        ∧ ∀ j i, ind !! j = Some i → xs !! j = arr !! i ∧ is_Some (arr !! i).
Proof.
  induction 1 as [|i ind Hi _ (xs & Hget & Hlen & Hlk)]; simpl.
  - exists []. by split_and!.
  - destruct (lookup_lt_is_Some_2 arr i Hi) as [x Hx].
    rewrite Hx, Hget. simpl. exists (x :: xs). split_and!; [done| |].
    + simpl. by rewrite Hlen.
    + intros [|j] i'; simpl; [|apply Hlk].
      intros [= <-]. by rewrite Hx.
Qed.

Lemma index_vectors_elem low high n v :
  v ∈ index_vectors low high n
  ↔ length v = n ∧ Forall (λ i, low ≤ i < high) v.
Proof.
  revert v. induction n as [|n IH]; intros v; simpl.
  - rewrite list_elem_of_singleton. split.
    + intros ->. by split.
    + intros [Hl _]. by destruct v.
  - rewrite list_elem_of_bind. split.
    + intros (i & Hv & Hi). apply list_elem_of_fmap in Hv as (w & -> & Hw).
      apply IH in Hw as [Hl Hf]. apply elem_of_seq in Hi.
      split; [simpl; by rewrite Hl|]. constructor; [lia|done].
    + intros [Hl Hf]. destruct v as [|i v]; [done|].
      apply Forall_cons in Hf as [Hi Hf]. exists i. split.
      * apply list_elem_of_fmap. exists v. split; [done|].
        apply IH. split; [by injection Hl|done].
      * apply elem_of_seq. lia.
Qed.

Lemma index_vectors_NoDup low high n : NoDup (index_vectors low high n).
Proof.
  induction n as [|n IH]; simpl.
  - apply NoDup_singleton.
  - apply NoDup_bind.
    + intros i1 i2 v _ _ (w1 & -> & _)%list_elem_of_fmap
        (w2 & [= -> _] & _)%list_elem_of_fmap. done.
    + intros i _. apply NoDup_fmap_2; [|done]. by intros ?? [=].
    + apply NoDup_seq.
Qed.

Lemma length_bind_const {A B} (f : A → list B) (l : list A) m :
  (∀ x, length (f x) = m) → length (l ≫= f) = length l * m.
Proof.
  intros Hf. induction l as [|x l IH]; csimpl; [done|].
  by rewrite length_app, Hf, IH.
Qed.

Lemma index_vectors_length low high n :
  length (index_vectors low high n) = (high - low) ^ n.
Proof.
  induction n as [|n IH]; simpl; [done|].
  rewrite (length_bind_const _ _ ((high - low) ^ n)).
  - by rewrite length_seq.
  - intros i. by rewrite length_fmap.
Qed.

Lemma gather_ok b ind :
  wf b → Forall (λ i, i < size b) ind →
  ∃ B, gather b ind = Ok B
       ∧ length (b_s B) = length ind ∧ length (b_a B) = length ind
       ∧ length (b_r B) = length ind ∧ length (b_s_next B) = length ind
       ∧ length (b_dw B) = length ind
       ∧ ∀ j i, ind !! j = Some i →
           i < size b
           ∧ is_Some (rows b !! i)
           ∧ rows5 (b_s B) (b_a B) (b_r B) (b_s_next B) (b_dw B) !! j
             = rows b !! i.
Proof.
  intros Hwf Hind. pose proof Hwf as [Hpos Hptr Hsize Hs Ha Hr Hn Hd].
  assert (Hall : ∀ {A} (arr : list A), length arr = max_size b →
                 Forall (λ i, i < length arr) ind).
  { intros A arr ->. eapply Forall_impl; [done|]. simpl. lia. }
  destruct (getitems_ok (s b) ind (Hall _ _ Hs)) as (s' & Es & Ls & Ks).
  destruct (getitems_ok (a b) ind (Hall _ _ Ha)) as (a' & Ea & La & Ka).
  destruct (getitems_ok (r b) ind (Hall _ _ Hr)) as (r' & Er & Lr & Kr).
  destruct (getitems_ok (s_next b) ind (Hall _ _ Hn)) as (n' & En & Ln & Kn).
  destruct (getitems_ok (dw b) ind (Hall _ _ Hd)) as (d' & Ed & Ld & Kd).
  exists (mkBatch s' a' r' n' d'). unfold gather.
  rewrite Es, Ea, Er, En, Ed. simpl. split_and!; try done.
  intros j i Hj.
  destruct (Ks j i Hj) as [Ks1 [x Hx]]. destruct (Ka j i Hj) as [Ka1 [y Hy]].
  destruct (Kr j i Hj) as [Kr1 [z Hz]]. destruct (Kn j i Hj) as [Kn1 [u Hu]].
  destruct (Kd j i Hj) as [Kd1 [v Hv]].
  assert (Hrow : rows b !! i = Some (mkTransition x y z u v))
    by (by apply rows5_lookup).
  split_and!.
  - eapply Forall_lookup_1 in Hind; [|done]. done.
  - by rewrite Hrow.
  - rewrite Hrow. apply rows5_lookup; congruence.
Qed.

(** C7. On a well-formed buffer with [size >= 1], the outcomes of
    [sample batch_size] are the batches gathered at the index vectors of
    [index_vectors 0 size batch_size], one outcome per vector: these are
    all the vectors of [batch_size] indices below [size], repetitions
    included, each listed once, so each has the same weight
    [1 / size ^ batch_size]. Every outcome is a batch of five sequences of
    length [batch_size] whose entries at a position [j] are the five
    components of the transition stored in the slot drawn at [j]. With
    [size = 0] the only outcome is an exception. *)
Theorem sample_uniform (b : ReplayBuffer) (batch_size : nat) :
  wf b →
  (1 ≤ size b →
     sample b batch_size = gather b <$> index_vectors 0 (size b) batch_size
     ∧ length (sample b batch_size) = size b ^ batch_size
     ∧ NoDup (index_vectors 0 (size b) batch_size)
     ∧ (∀ ind, ind ∈ index_vectors 0 (size b) batch_size
               ↔ length ind = batch_size ∧ Forall (λ i, i < size b) ind)
     ∧ (∀ k ind, index_vectors 0 (size b) batch_size !! k = Some ind →
          ∃ B, sample b batch_size !! k = Some (Ok B)
               ∧ sample_with b batch_size ind = Ok B
               ∧ length (b_s B) = batch_size ∧ length (b_a B) = batch_size
               ∧ length (b_r B) = batch_size
               ∧ length (b_s_next B) = batch_size
               ∧ length (b_dw B) = batch_size
               ∧ ∀ j i, ind !! j = Some i →
                   i < size b
                   ∧ is_Some (rows b !! i)
                   ∧ rows5 (b_s B) (b_a B) (b_r B) (b_s_next B) (b_dw B) !! j
                     = rows b !! i))
  ∧ (size b = 0 →
       sample b batch_size = [Raise RuntimeError]
       ∧ ∀ ind, sample_with b batch_size ind = Raise RuntimeError).
Proof.
  intros Hwf. split.
  - intros Hsz.
    assert (Hs : sample b batch_size
                 = gather b <$> index_vectors 0 (size b) batch_size).
    { unfold sample, randint. by rewrite decide_True by lia. }
    assert (Hel : ∀ ind, ind ∈ index_vectors 0 (size b) batch_size
               ↔ length ind = batch_size ∧ Forall (λ i, i < size b) ind).
    { intros ind. rewrite index_vectors_elem. split; intros [? Hf]; split;
        try done; eapply Forall_impl; try done; simpl; lia. }
    split_and!; try done.
    + by rewrite Hs, length_fmap, index_vectors_length, Nat.sub_0_r.
    + apply index_vectors_NoDup.
    + intros k ind Hk.
      destruct (Hel ind) as [[Hlen Hf] _]; [by eapply list_elem_of_lookup_2|].
      destruct (gather_ok b ind Hwf Hf) as (B & HB & L1 & L2 & L3 & L4 & L5 & Hrow).
      exists B. rewrite Hs, list_lookup_fmap, Hk. simpl. rewrite HB.
      unfold sample_with, randint. rewrite decide_True by lia. simpl.
      rewrite <-Hlen. by split_and!.
  - intros Hz. unfold sample, sample_with, randint.
    rewrite decide_False by lia. done.
Qed.

(** The two theorems at work on a buffer of capacity 2. *)
Lemma add_circular_witness :
  ∃ b, add_all (init 1 1 2) [Toy.x1; Toy.x2; Toy.x3] = Ok b
       ∧ size b = 2 ∧ ptr b = 1
       ∧ rotate (ptr b) (rows b) = [Toy.x2; Toy.x3].
Proof.
  destruct (add_circular 1 1 2 ltac:(lia)) as [_ Hall].
  destruct (Hall [Toy.x1; Toy.x2; Toy.x3])
    as (b & Hb & _ & _ & _ & Hsz & Hp & _ & Hfull).
  destruct Hfull as (_ & Hrot & _); [simpl; lia|].
  exists b. by split_and!.
Defined.

Lemma toy_buffer_wf : wf Toy.toy_buffer.
Proof. constructor; simpl; lia. Qed.

Lemma sample_uniform_witness :
  length (sample Toy.toy_buffer 3) = 8
  ∧ sample (init 1 1 2) 3 = [Raise RuntimeError].
Proof.
  split.
  - destruct (sample_uniform Toy.toy_buffer 3 toy_buffer_wf) as [Hpos _].
    destruct Hpos as (_ & Hlen & _); [simpl; lia|]. exact Hlen.
  - destruct (sample_uniform (init 1 1 2) 3 (init_wf 1 1 2 ltac:(lia)))
      as [_ Hzero].
    by apply Hzero.
Defined.

End ReplayProofs.

(** ** Real analysis behind the numeric claims *)

Module RealFacts.
Import Tensor.
Local Open Scope R_scope.

(** [ln x <= x - 1], strictly unless [x = 1]. *)
Lemma ln_le_minus_1 x : 0 < x → ln x <= x - 1.
Proof.
  intros Hx. pose proof (exp_ineq1_le (ln x)) as Hle.
  rewrite exp_ln in Hle by done. lra.
Qed.

Lemma ln_lt_minus_1 x : 0 < x → x ≠ 1 → ln x < x - 1.
Proof.
  intros Hx Hne. pose proof (exp_ineq1 (ln x) (ln_neq_0 x Hne Hx)) as Hlt.
  rewrite exp_ln in Hlt by done. lra.
Qed.

Lemma cosh_pos x : 0 < cosh x.
Proof.
  unfold cosh. pose proof (exp_pos x). pose proof (exp_pos (- x)). lra.
Qed.

Lemma one_minus_tanh_sq x : 1 - tanh x ^ 2 = (/ cosh x) ^ 2.
Proof.
  pose proof (cosh_pos x) as Hc. unfold tanh.
  assert (Hcs : cosh x ^ 2 - sinh x ^ 2 = 1).
  { unfold cosh, sinh. pose proof (exp_pos x) as Hp.
    assert (He : exp x * exp (- x) = 1)
      by (rewrite exp_Ropp; field; lra).
    nra. }
  replace (1 - (sinh x / cosh x) ^ 2)
    with ((cosh x ^ 2 - sinh x ^ 2) * (/ cosh x) ^ 2) by (field; lra).
  rewrite Hcs. lra.
Qed.

Lemma ln_cosh x : ln (cosh x) = x + softplus (-2 * x) - ln 2.
Proof.
  unfold softplus, cosh.
  pose proof (exp_pos x) as Hp. pose proof (exp_pos (-2 * x)) as Hq.
  replace ((exp x + exp (- x)) / 2)
    with (exp x * (1 + exp (-2 * x)) * / 2).
  - rewrite !ln_mult, ln_Rinv, ln_exp; try lra; try nra.
  - replace (-2 * x) with (- x + - x) by lra.
    rewrite exp_plus, exp_Ropp. field. lra.
Qed.

(** The softplus form of the correction is the logarithm of the Jacobian of
    [tanh]. *)
Lemma squash_correction_tanh u :
  Actor.squash_correction u = ln (1 - tanh u ^ 2).
Proof.
  unfold Actor.squash_correction.
  rewrite one_minus_tanh_sq.
  pose proof (cosh_pos u) as Hc.
  rewrite ln_pow by (by apply Rinv_0_lt_compat).
  rewrite ln_Rinv, ln_cosh by done. simpl. lra.
Qed.

Lemma normal_log_prob_density mu std u :
  0 < std →
  exp (normal_log_prob mu std u)
  = / (std * sqrt (2 * PI)) * exp (- (u - mu) ^ 2 / (2 * std ^ 2)).
Proof.
  intros Hs. unfold normal_log_prob.
  assert (Hpi : 0 < sqrt (2 * PI)) by (apply sqrt_lt_R0; pose proof PI_RGT_0; lra).
  unfold Rminus. rewrite !exp_plus, !exp_Ropp, !exp_ln by done.
  field. split; lra.
Qed.

(** *** Sums and norms *)

Lemma Rsum_cons x xs : Rsum (x :: xs) = x + Rsum xs.
Proof. reflexivity. Qed.

Lemma Rsum_scale c xs : Rsum (Rmult c <$> xs) = c * Rsum xs.
Proof.
  induction xs as [|x xs IH]; [unfold Rsum; simpl; lra|].
  rewrite fmap_cons, !Rsum_cons, IH. lra.
Qed.

Lemma Rsum_sq_nonneg xs : 0 <= Rsum ((λ x, x ^ 2) <$> xs).
Proof.
  induction xs as [|x xs IH]; [unfold Rsum; simpl; lra|].
  rewrite fmap_cons, Rsum_cons. nra.
Qed.

Lemma norm2_scale c xs : norm2 (Rmult c <$> xs) = Rabs c * norm2 xs.
Proof.
  unfold norm2. rewrite <-list_fmap_compose.
  rewrite (list_fmap_ext _ (Rmult (c ^ 2) ∘ (λ x, x ^ 2)) xs)
    by (intros; simpl; lra).
  rewrite list_fmap_compose, Rsum_scale.
  rewrite sqrt_mult by (try apply Rsum_sq_nonneg; nra).
  f_equal. replace (c ^ 2) with (Rsqr c) by (unfold Rsqr; lra).
  apply sqrt_Rsqr_abs.
Qed.

Lemma soft_update_length tau online target :
  length (Agent.soft_update tau online target) = length target.
Proof.
  revert target. induction online as [|p online IH]; intros [|t target];
    simpl; try done. by rewrite IH.
Qed.

Lemma soft_update_lookup tau online target i p t :
  online !! i = Some p → target !! i = Some t →
  Agent.soft_update tau online target !! i = Some (tau * p + (1 - tau) * t).
Proof.
  revert online target.
  induction i as [|i IH]; intros [|p' online] [|t' target]; simpl; try done.
  - by intros [= ->] [= ->].
  - apply IH.
Qed.

Lemma soft_update_vsub tau online target :
  vsub (Agent.soft_update tau online target) online
  = Rmult (1 - tau) <$> vsub target online.
Proof.
  revert target. induction online as [|p online IH]; intros [|t target];
    simpl; try done.
  unfold vsub in *. simpl. rewrite IH. f_equal. lra.
Qed.

Lemma soft_update_iter_vsub tau online target n :
  vsub (Nat.iter n (Agent.soft_update tau online) target) online
  = Rmult ((1 - tau) ^ n) <$> vsub target online.
Proof.
  induction n as [|n IH]; simpl.
  - rewrite (list_fmap_ext _ id) by (intros; unfold id; lra).
    by rewrite list_fmap_id.
  - rewrite soft_update_vsub, IH, <-list_fmap_compose.
    apply list_fmap_ext. intros; unfold compose. lra.
Qed.

Lemma soft_update_iter_norm tau online target n :
  0 <= tau <= 1 →
  norm2 (vsub (Nat.iter n (Agent.soft_update tau online) target) online)
  = (1 - tau) ^ n * norm2 (vsub target online).
Proof.
  intros Ht. rewrite soft_update_iter_vsub, norm2_scale.
  rewrite Rabs_right; [done|]. apply Rle_ge, pow_le. lra.
Qed.

End RealFacts.

(** ** The agent: construction and training step *)

Module AgentProofs.
Import Tensor Agent.
Local Open Scope R_scope.

Lemma for_range_S {S} n (body : S → S) st :
  for_range (Datatypes.S n) body st = body (for_range n body st).
Proof. unfold for_range. by rewrite seq_S, foldl_app. Qed.

Lemma for_range_iter {S} n (body : S → S) st :
  for_range n body st = Nat.iter n body st.
Proof.
  induction n as [|n IH]; [done|]. by rewrite for_range_S, IH.
Qed.

Lemma bind_Ok_inv {A B} (m : result A) (f : A → result B) y :
  m ≫= f = Ok y → ∃ x, m = Ok x ∧ f x = Ok y.
Proof. destruct m as [x|]; [|done]. intros Hf. by exists x. Qed.

Lemma Ok_inv {A} (x y : A) : Ok x = Ok y → x = y.
Proof. by intros [= ->]. Qed.

Lemma Ok_pair_inv {A B} (x x' : A) (y y' : B) :
  Ok (x, y) = Ok (x', y') → x = x' ∧ y = y'.
Proof. by intros [= -> ->]. Qed.

(** The steps of [compute_delta] up to the assertion. *)
Lemma compute_delta_steps `{PyFloat} (train_std eval_std train_var eval_var : R) :
  float_pow2 train_std = Some train_var →
  float_pow2 eval_std = Some eval_var →
  train_var ≠ 0 → eval_var ≠ 0 → 0 < float_div train_var eval_var →
  compute_delta train_std eval_std
  = check_delta (delta_expr train_var eval_var).
Proof.
  intros Ht He Htv Hev Hq. unfold compute_delta, py_pow2, py_div, math_log.
  rewrite Ht, He. cbn [mbind result_bind].
  rewrite (decide_False (P := train_var = 0)) by done. cbn [mbind result_bind].
  rewrite (decide_False (P := eval_var = 0)) by done. cbn [mbind result_bind].
  rewrite (decide_True (P := 0 < float_div train_var eval_var)) by done.
  done.
Qed.

(** What a returned [delta] has gone through. *)
Lemma compute_delta_inv `{PyFloat} (train_std eval_std d : R) :
  compute_delta train_std eval_std = Ok d →
  ∃ train_var eval_var,
    float_pow2 train_std = Some train_var
    ∧ float_pow2 eval_std = Some eval_var
    ∧ train_var ≠ 0 ∧ eval_var ≠ 0 ∧ 0 < float_div train_var eval_var
    ∧ d = delta_expr train_var eval_var ∧ d >= 0.
Proof.
  unfold compute_delta, py_pow2, py_div, math_log, check_delta, py_assert.
  destruct (float_pow2 train_std) as [tv|]; [|done].
  destruct (float_pow2 eval_std) as [ev|]; [|done].
  cbn [mbind result_bind].
  destruct (decide (tv = 0)) as [|Htv]; [done|]. cbn [mbind result_bind].
  destruct (decide (ev = 0)) as [|Hev]; [done|]. cbn [mbind result_bind].
  destruct (decide (0 < float_div tv ev)) as [Hq|]; [|done].
  cbn [mbind result_bind].
  destruct (decide (_ >= 0)) as [Hge|]; [|done].
  cbn [mbind mret result_bind result_ret].
  intros Hd. apply Ok_inv in Hd as <-. exists tv, ev. by split_and!.
Qed.

(** The exceptions raised before the assertion is reached: a square out of
    range, a division by a variance that is zero, and a logarithm of a
    quotient that is not positive. *)
Lemma compute_delta_raises `{PyFloat} (train_std eval_std : R) :
  (float_pow2 train_std = None ∨ float_pow2 eval_std = None →
   compute_delta train_std eval_std = Raise OverflowError)
  ∧ (∀ train_var eval_var,
       float_pow2 train_std = Some train_var →
       float_pow2 eval_std = Some eval_var →
       (train_var = 0 ∨ eval_var = 0 →
        compute_delta train_std eval_std = Raise ZeroDivisionError)
       ∧ (train_var ≠ 0 → eval_var ≠ 0 → float_div train_var eval_var <= 0 →
          compute_delta train_std eval_std = Raise ValueError)).
Proof.
  unfold compute_delta, py_pow2, py_div, math_log. split.
  - intros [Hn | Hn]; rewrite Hn; [done|].
    by destruct (float_pow2 train_std).
  - intros tv ev -> ->. cbn [mbind result_bind]. split.
    + intros Hz. destruct (decide (tv = 0)) as [|Htv]; [done|].
      cbn [mbind result_bind].
      destruct (decide (ev = 0)) as [|Hev]; [done|]. by destruct Hz.
    + intros Htv Hev Hq.
      rewrite (decide_False (P := tv = 0)) by done. cbn [mbind result_bind].
      rewrite (decide_False (P := ev = 0)) by done. cbn [mbind result_bind].
      rewrite (decide_False (P := 0 < float_div tv ev)) by lra. done.
Qed.

(** The assertion on a computed value. *)
Lemma check_delta_cases (x : R) :
  (x < 0 → check_delta x = Raise AssertionError)
  ∧ (x >= 0 → check_delta x = Ok x).
Proof.
  unfold check_delta, py_assert. split; intros Hx.
  - by rewrite decide_False by lra.
  - by rewrite decide_True by done.
Qed.

(** Without rounding the expression is the Gaussian Kullback-Leibler
    formula on the two variances, which is never negative and is zero for
    equal variances only. *)
Lemma delta_expr_exact (train_std eval_std : R) :
  train_std ≠ 0 → eval_std ≠ 0 →
  let dl := 0.5 * (eval_std ^ 2 / train_std ^ 2
                   + ln (train_std ^ 2 / eval_std ^ 2) - 1) in
  @delta_expr exact_float (train_std ^ 2) (eval_std ^ 2) = dl
  ∧ 0 <= dl
  ∧ (dl = 0 ↔ eval_std ^ 2 = train_std ^ 2).
Proof.
  intros Ht He dl.
  assert (Htv : 0 < train_std ^ 2) by nra.
  assert (Hev : 0 < eval_std ^ 2) by nra.
  set (q := eval_std ^ 2 / train_std ^ 2).
  assert (Hq : 0 < q) by (by apply Rdiv_lt_0_compat).
  assert (Hinv : train_std ^ 2 / eval_std ^ 2 = / q)
    by (unfold q; field; split; lra).
  assert (Hdl : dl = 0.5 * (q - 1 - ln q)).
  { unfold dl. fold q. rewrite Hinv, ln_Rinv by done. lra. }
  split_and!; [done| |].
  - rewrite Hdl. pose proof (RealFacts.ln_le_minus_1 q Hq). lra.
  - rewrite Hdl. split.
    + intros H0. destruct (decide (q = 1)) as [Hq1|Hq1].
      * unfold q in Hq1. apply (f_equal (Rmult (train_std ^ 2))) in Hq1.
        field_simplify in Hq1; lra.
      * pose proof (RealFacts.ln_lt_minus_1 q Hq Hq1). lra.
    + intros Heq. assert (q = 1) as -> by (unfold q; rewrite Heq; field; lra).
      rewrite ln_1. lra.
Qed.

(** The value of [compute_delta] without rounding, for non-zero standard
    deviations. *)
Lemma compute_delta_value (train_std eval_std : R) :
  train_std ≠ 0 → eval_std ≠ 0 →
  let dl := 0.5 * (eval_std ^ 2 / train_std ^ 2
                   + ln (train_std ^ 2 / eval_std ^ 2) - 1) in
  @compute_delta exact_float train_std eval_std = Ok dl
  ∧ 0 <= dl
  ∧ (dl = 0 ↔ eval_std ^ 2 = train_std ^ 2).
Proof.
  intros Ht He dl.
  destruct (delta_expr_exact train_std eval_std Ht He) as (Hv & Hnn & Hz).
  fold dl in Hv, Hnn, Hz. split_and!; [|done|done].
  rewrite (compute_delta_steps (H := exact_float) train_std eval_std
             (train_std ^ 2) (eval_std ^ 2)); try done.
  - rewrite Hv. apply check_delta_cases. lra.
  - nra.
  - nra.
  - cbn [float_div exact_float]. apply Rdiv_lt_0_compat; nra.
Qed.

(** A zero standard deviation stops the constructor at the division. *)
Lemma compute_delta_zero_std (train_std eval_std : R) :
  train_std = 0 ∨ eval_std = 0 →
  @compute_delta exact_float train_std eval_std = Raise ZeroDivisionError.
Proof.
  intros Hz. unfold compute_delta, py_pow2, py_div.
  cbn [float_pow2 exact_float mbind result_bind].
  destruct (decide (train_std ^ 2 = 0)) as [|Hne]; [done|].
  cbn [mbind result_bind].
  destruct (decide (eval_std ^ 2 = 0)) as [|Hne']; [done|].
  destruct Hz as [-> | ->]; [destruct Hne|destruct Hne']; lra.
Qed.

(** C4, the claim as stated fails: with [train_std = 1] and [eval_std = -1]
    the standard deviations differ and both variances are 1, yet the
    constructor computes [delta = 0]; and [train_std = eval_std = 0] raises
    instead of yielding [delta = 0]. Every value met on the way is a float,
    so no rounding takes place. *)
Lemma delta_claim_counterexample :
  ((-1) ≠ 1 ∧ 0 < 1 ^ 2 ∧ 0 < (-1) ^ 2
   ∧ @compute_delta exact_float 1 (-1) = Ok 0)
  ∧ @compute_delta exact_float 0 0 = Raise ZeroDivisionError
  ∧ ¬ (∀ train_std eval_std : R,
         eval_std ≠ train_std → 0 < train_std ^ 2 → 0 < eval_std ^ 2 →
         ∃ dl, @compute_delta exact_float train_std eval_std = Ok dl
               ∧ 0 < dl).
Proof.
  assert (Hv : @compute_delta exact_float 1 (-1) = Ok 0).
  { destruct (compute_delta_value 1 (-1)) as (Hok & _ & Hz); [lra|lra|].
    rewrite Hok. f_equal. apply Hz. lra. }
  split_and!; try lra; try done.
  - apply compute_delta_zero_std. by left.
  - intros Hall. destruct (Hall 1 (-1)) as (dl & Hdl & Hpos); try lra.
    rewrite Hv in Hdl. injection Hdl as <-. lra.
Qed.

Section WithTorch.
Context `{Torch} `{PyFloat}.

Lemma dual_loop n r_sample ag :
  let ag' := for_range n (dual_step r_sample) ag in
  (beta_optimizer ag', beta ag')
  = Nat.iter n
      (λ p, opt_step p.1
              (λ b, Rsum (Ropp <$> dual_func (delta ag) r_sample r_sample
                                      (exp <$> b)))
              p.2)
      (beta_optimizer ag, beta ag)
  ∧ same_nets ag ag' ∧ reward ag' = reward ag
  ∧ reward_optimizer ag' = reward_optimizer ag.
Proof.
  induction n as [|n IH]; simpl.
  - unfold for_range, same_nets. simpl. by split_and!.
  - rewrite for_range_S. simpl in IH.
    destruct IH as (Hb & Hs & Hr & Ho).
    set (agn := for_range n (dual_step r_sample) ag) in *.
    rewrite <-Hb. unfold dual_step, opt_loss.
    destruct Hs as (?&Hd&?&?&?&?&?&?&?&?&?&?&?). rewrite Hd.
    split_and!; simpl; try done.
    by destruct (opt_step _ _ _).
Qed.

Lemma train_inv ag d ag' :
  train ag d = Ok ag' →
  ∃ B ag1 r_opt target_Q ag4,
    Replay.sample_with (replay_buffer ag) (batch_size (cfg ag)) (ind d) = Ok B
    ∧ (if robust (cfg ag)
       then ∃ ro, robust_block ag B d = Ok (ag1, ro) ∧ r_opt = Some ro
       else ag1 = ag ∧ r_opt = None)
    ∧ critic_target ag1 B r_opt d = Ok target_Q
    ∧ (if adaptive_alpha (cfg ag1)
       then update_alpha (update_actor (update_critic ag1 B target_Q) B d).1
              (update_actor (update_critic ag1 B target_Q) B d).2 = Ok ag4
       else ag4 = (update_actor (update_critic ag1 B target_Q) B d).1)
    ∧ ag' = update_target ag4.
Proof.
  unfold train. intros Htrain.
  destruct (Replay.sample_with _ _ _) as [B|] eqn:HB; [|done].
  simpl in Htrain. exists B.
  assert (∃ ag1 r_opt,
    (if robust (cfg ag)
       then ∃ ro, robust_block ag B d = Ok (ag1, ro) ∧ r_opt = Some ro
       else ag1 = ag ∧ r_opt = None)
    ∧ (critic_target ag1 B r_opt d ≫= λ target_Q,
        let ag2 := update_critic ag1 B target_Q in
        let '(ag3, log_pi_a) := update_actor ag2 B d in
        (if adaptive_alpha (cfg ag3) then update_alpha ag3 log_pi_a
         else mret ag3) ≫= λ ag4, mret (update_target ag4)) = Ok ag')
    as (ag1 & r_opt & Hrob & Hrest).
  { destruct (robust (cfg ag)).
    - destruct (robust_block ag B d) as [[ag1 ro]|] eqn:Hrb; [|done].
      exists ag1, (Some ro). split; [by exists ro|done].
    - exists ag, None. by split. }
  clear Htrain. exists ag1, r_opt.
  destruct (critic_target ag1 B r_opt d) as [target_Q|] eqn:Hy; [|done].
  simpl in Hrest. exists target_Q.
  unfold update_actor in *. simpl in *.
  destruct (adaptive_alpha (cfg ag1)).
  - destruct (update_alpha _ _) as [ag4|] eqn:Ha; [|done].
    simpl in Hrest. exists ag4. split_and!; try done. by injection Hrest.
  - simpl in Hrest. eexists. split_and!; try done. by injection Hrest.
Qed.

Lemma sample_rows psi rt state action num noise rs :
  Reward.sample psi rt state action num noise = Ok rs →
  rt = "continuous" ∧ Forall (λ row, length row = num) rs.
Proof.
  unfold Reward.sample. destruct (decide (rt = "continuous")); [|done].
  simpl. intros [= <-]. split; [done|].
  apply Forall_lookup. intros i row.
  rewrite list_lookup_imap. destruct (zip _ _ !! i); simpl; [|done].
  intros [= <-]. by rewrite length_fmap, length_seq.
Qed.

Lemma shape1_rows (rs : list (list R)) n i row :
  Forall (λ row, length row = n) rs → rs !! i = Some row → shape1 rs = n.
Proof.
  intros Hall Hi. destruct rs as [|row0 rs]; [done|].
  simpl. by apply Forall_cons in Hall as [? _].
Qed.

Lemma dual_func_lookup dl r_sample n beta i row b :
  Forall (λ row, length row = n) r_sample →
  r_sample !! i = Some row → beta !! i = Some b →
  dual_func dl r_sample r_sample (exp <$> beta) !! i
  = Some (- exp b * (logsumexp ((λ x, - x / exp b) <$> row) - ln (INR n))
          - exp b * dl).
Proof.
  intros Hall Hrow Hb. unfold dual_func.
  rewrite lookup_zip_with, Hrow, list_lookup_fmap, Hb. simpl.
  by rewrite (shape1_rows _ n i row).
Qed.

Lemma robust_block_inv ag B d ag1 ro :
  robust_block ag B d = Ok (ag1, ro) →
  ∃ r_sample,
    let p := opt_step (reward_optimizer ag) (r_loss ag B d) (reward ag) in
    reward ag1 = p.2 ∧ reward_optimizer ag1 = p.1
    ∧ Reward.sample (reward ag1) (rtype (cfg ag)) (Replay.b_s B)
        (Replay.b_a B) 50 (eps_sample d) = Ok r_sample
    ∧ (beta_optimizer ag1, beta ag1)
      = Nat.iter 10
          (λ q, opt_step q.1
                  (λ b, Rsum (Ropp <$> dual_func (delta ag) r_sample r_sample
                                          (exp <$> b)))
                  q.2)
          (beta_optimizer ag, beta ag)
    ∧ same_nets ag ag1
    ∧ ro = dual_func (delta ag) r_sample r_sample (exp <$> beta ag1).
Proof.
  unfold robust_block. intros Hrb.
  apply bind_Ok_inv in Hrb as (r_pred & _ & Hrb).
  apply bind_Ok_inv in Hrb as (r_sample & Hs & Hrb).
  apply Ok_pair_inv in Hrb as [<- <-]. exists r_sample.
  set (ag0 := set_reward ag _) in *.
  destruct (dual_loop 10 r_sample ag0) as (Hb & Hn & Hr & Ho).
  destruct Hn as (?&Hd&?&?&?&?&?&?&?&?&?&?&?).
  split_and!; try done; congruence.
Qed.

Lemma critic_target_inv ag B r_opt d target_Q :
  critic_target ag B r_opt d = Ok target_Q →
  ∃ r_used log_pi,
    let fw := Actor.forward (actor ag) (Replay.b_s_next B) false true
                (eps_next d) in
    let tq := Double_Q_Critic.forward (q_critic_target ag)
                (Replay.b_s_next B) fw.1 in
    fw.2 = Some log_pi
    ∧ (if robust (cfg ag) then r_opt = Some r_used
       else r_used = Replay.b_r B)
    ∧ target_Q
      = zip_with Rplus r_used
          (zip_with Rmult
             ((λ x : bool, bool_to_R (negb x) * gamma (cfg ag))
                <$> Replay.b_dw B)
             (zip_with Rminus (zip_with Rmin tq.1 tq.2)
                (Rmult (alpha ag) <$> log_pi))).
Proof.
  unfold critic_target. simpl. intros Hy.
  destruct (robust (cfg ag)).
  - destruct r_opt as [ro|]; [|done]. simpl in Hy. injection Hy as <-.
    by eexists _, _.
  - simpl in Hy. injection Hy as <-. by eexists _, _.
Qed.

Lemma bellman_lookup r_used dws gam tq1 tq2 al log_pi i r dn q1 q2 l :
  r_used !! i = Some r → dws !! i = Some dn →
  tq1 !! i = Some q1 → tq2 !! i = Some q2 → log_pi !! i = Some l →
  ∃ y,
    zip_with Rplus r_used
      (zip_with Rmult ((λ x : bool, bool_to_R (negb x) * gam) <$> dws)
         (zip_with Rminus (zip_with Rmin tq1 tq2) (Rmult al <$> log_pi)))
    !! i = Some y
    ∧ y = r + (1 - bool_to_R dn) * gam * (Rmin q1 q2 - al * l)
    ∧ (dn = true → y = r).
Proof.
  intros Hr Hd H1 H2 Hl. eexists. split_and!.
  - rewrite !lookup_zip_with, !list_lookup_fmap, Hr, Hd, H1, H2, Hl. done.
  - destruct dn; simpl; lra.
  - intros ->. simpl. lra.
Qed.

Lemma update_alpha_frame ag lp ag' :
  update_alpha ag lp = Ok ag' →
  cfg ag' = cfg ag ∧ delta ag' = delta ag ∧ tau ag' = tau ag
  ∧ q_critic ag' = q_critic ag ∧ q_critic_target ag' = q_critic_target ag
  ∧ beta ag' = beta ag ∧ beta_optimizer ag' = beta_optimizer ag
  ∧ reward ag' = reward ag ∧ replay_buffer ag' = replay_buffer ag.
Proof.
  unfold update_alpha. destruct lp as [l|]; [|done]. simpl.
  destruct (opt_step _ _ _). intros [= <-]. by split_and!.
Qed.

(** What one call of [train] does to the attributes outside the actor and
    the entropy coefficient. *)
Lemma train_frame ag d ag' :
  train ag d = Ok ag' →
  ∃ B ag1 r_opt target_Q,
    Replay.sample_with (replay_buffer ag) (batch_size (cfg ag)) (ind d) = Ok B
    ∧ (if robust (cfg ag)
       then ∃ ro, robust_block ag B d = Ok (ag1, ro) ∧ r_opt = Some ro
       else ag1 = ag ∧ r_opt = None)
    ∧ same_nets ag ag1
    ∧ critic_target ag1 B r_opt d = Ok target_Q
    ∧ cfg ag' = cfg ag ∧ delta ag' = delta ag ∧ tau ag' = tau ag
    ∧ replay_buffer ag' = replay_buffer ag
    ∧ beta ag' = beta ag1 ∧ beta_optimizer ag' = beta_optimizer ag1
    ∧ reward ag' = reward ag1
    ∧ q_critic ag'
      = (opt_step (q_critic_optimizer ag) (q_loss B target_Q) (q_critic ag)).2
    ∧ q_critic_target ag'
      = soft_update (tau ag) (q_critic ag') (q_critic_target ag).
Proof.
  intros (B & ag1 & r_opt & y & ag4 & HB & Hrob & Hy & Hal & ->)%train_inv.
  exists B, ag1, r_opt, y.
  assert (Hsame : same_nets ag ag1).
  { destruct (robust (cfg ag)).
    - destruct Hrob as (ro & Hrb & _).
      by destruct (robust_block_inv _ _ _ _ _ Hrb) as (? & _ & _ & _ & _ & ? & _).
    - destruct Hrob as [-> _]. unfold same_nets. by split_and!. }
  pose proof Hsame as (Hc&Hd&Ht&?&?&?&Hq&Hqo&Hqt&Hrb&?&?&?).
  assert (Hfr : cfg ag4 = cfg ag1 ∧ delta ag4 = delta ag1 ∧ tau ag4 = tau ag1
    ∧ q_critic ag4
      = (opt_step (q_critic_optimizer ag1) (q_loss B y) (q_critic ag1)).2
    ∧ q_critic_target ag4 = q_critic_target ag1
    ∧ beta ag4 = beta ag1 ∧ beta_optimizer ag4 = beta_optimizer ag1
    ∧ reward ag4 = reward ag1 ∧ replay_buffer ag4 = replay_buffer ag1).
  { destruct (adaptive_alpha (cfg ag1)).
    - apply update_alpha_frame in Hal. simpl in Hal. done.
    - subst ag4. simpl. by split_and!. }
  destruct Hfr as (Hc4&Hd4&Ht4&Hq4&Hqt4&Hb4&Hbo4&Hr4&Hrb4).
  unfold update_target. simpl.
  rewrite Hc4, Hd4, Ht4, Hq4, Hqt4, Hb4, Hbo4, Hr4, Hrb4.
  rewrite Hc, Hd, Ht, Hq, Hqo, Hqt, Hrb. by split_and!.
Qed.

(** C1. In robust mode a successful call of [train] draws 50 rewards per
    batch row from the updated reward net, runs the optimizer of [beta]
    exactly 10 times, each time on the loss [- sum_i g_i (exp beta_i)], where
    [g_i (b) = - b * (logsumexp (- R_i / b) - ln 50) - b * delta] is the
    value of [dual_func] on row [i], and regresses the critics on the target
    whose reward term is [g_i (exp beta_i)] at the final [beta], not the
    sampled reward. *)
Theorem robust_dual_reward ag d ag' :
  robust (cfg ag) = true →
  train ag d = Ok ag' →
  ∃ B r_sample log_pi target_Q,
    Replay.sample_with (replay_buffer ag) (batch_size (cfg ag)) (ind d) = Ok B
    ∧ Reward.sample (reward ag') (rtype (cfg ag)) (Replay.b_s B)
        (Replay.b_a B) 50 (eps_sample d) = Ok r_sample
    ∧ Forall (λ row, length row = 50%nat) r_sample
    ∧ (∀ beta i row b,
         r_sample !! i = Some row → beta !! i = Some b →
         dual_func (delta ag) r_sample r_sample (exp <$> beta) !! i
         = Some (- exp b * (logsumexp ((λ x, - x / exp b) <$> row) - ln 50)
                 - exp b * delta ag))
    ∧ (beta_optimizer ag', beta ag')
      = Nat.iter 10
          (λ q, opt_step q.1
                  (λ b, Rsum (Ropp <$> dual_func (delta ag) r_sample r_sample
                                          (exp <$> b)))
                  q.2)
          (beta_optimizer ag, beta ag)
    ∧ (let fw := Actor.forward (actor ag) (Replay.b_s_next B) false true
                   (eps_next d) in
       let tq := Double_Q_Critic.forward (q_critic_target ag)
                   (Replay.b_s_next B) fw.1 in
       fw.2 = Some log_pi
       ∧ target_Q
         = zip_with Rplus
             (dual_func (delta ag) r_sample r_sample (exp <$> beta ag'))
             (zip_with Rmult
                ((λ x : bool, bool_to_R (negb x) * gamma (cfg ag))
                   <$> Replay.b_dw B)
                (zip_with Rminus (zip_with Rmin tq.1 tq.2)
                   (Rmult (alpha ag) <$> log_pi))))
    ∧ q_critic ag'
      = (opt_step (q_critic_optimizer ag) (q_loss B target_Q) (q_critic ag)).2.
Proof.
  intros Hrob Htrain.
  destruct (train_frame _ _ _ Htrain)
    as (B & ag1 & r_opt & y & HB & Hblk & Hsame & Hy
        & Hc & Hd & Ht & Hbuf & Hb & Hbo & Hr & Hq & Hqt).
  rewrite Hrob in Hblk. destruct Hblk as (ro & Hrb & ->).
  destruct (robust_block_inv _ _ _ _ _ Hrb)
    as (r_sample & Hr1 & Hro1 & Hs & Hit & _ & ->).
  destruct (sample_rows _ _ _ _ _ _ _ Hs) as [_ Hrows].
  destruct (critic_target_inv _ _ _ _ _ Hy) as (r_used & log_pi & Hlp & Hru & Hyeq).
  pose proof Hsame as (Hc1&Hd1&Ht1&Hal1&Hac1&_&_&_&Hqt1&_).
  rewrite Hc1, Hrob in Hru. injection Hru as <-.
  rewrite Hc1, Hal1, Hac1, Hqt1 in *.
  exists B, r_sample, log_pi, y. rewrite Hr, Hb, Hbo.
  split_and!; try done.
  intros beta0 i row b Hi Hbi.
  rewrite (dual_func_lookup _ _ 50 _ i row b) by done.
  do 4 f_equal. rewrite INR_IZR_INZ. done.
Qed.

(** C2. A successful call of [train] regresses the critics on the target
    [y] whose entry for a batch row is
    [r_used + (1 - done) * gamma * (min (Q1', Q2') - alpha * log_pi)]:
    the next action and [log_pi] come from the current actor at [s_next],
    [Q1'] and [Q2'] from the target critic, [r_used] is the dual estimate
    of the robust block in robust mode and the sampled reward otherwise;
    a row with [done] set has [y = r_used]. The target enters the critic
    loss as a constant. *)
Theorem critic_target_bellman ag d ag' :
  train ag d = Ok ag' →
  ∃ B ag1 r_used log_pi target_Q,
    Replay.sample_with (replay_buffer ag) (batch_size (cfg ag)) (ind d) = Ok B
    ∧ (if robust (cfg ag) then robust_block ag B d = Ok (ag1, r_used)
       else r_used = Replay.b_r B)
    ∧ (let fw := Actor.forward (actor ag) (Replay.b_s_next B) false true
                   (eps_next d) in
       let tq := Double_Q_Critic.forward (q_critic_target ag)
                   (Replay.b_s_next B) fw.1 in
       fw.2 = Some log_pi
       ∧ ∀ i r dn q1 q2 l,
           r_used !! i = Some r → Replay.b_dw B !! i = Some dn →
           tq.1 !! i = Some q1 → tq.2 !! i = Some q2 →
           log_pi !! i = Some l →
           ∃ y, target_Q !! i = Some y
                ∧ y = r + (1 - bool_to_R dn) * gamma (cfg ag)
                          * (Rmin q1 q2 - alpha ag * l)
                ∧ (dn = true → y = r))
    ∧ q_critic ag'
      = (opt_step (q_critic_optimizer ag) (q_loss B target_Q) (q_critic ag)).2.
Proof.
  intros Htrain.
  destruct (train_frame _ _ _ Htrain)
    as (B & ag1 & r_opt & y & HB & Hblk & Hsame & Hy
        & Hc & Hd & Ht & Hbuf & Hb & Hbo & Hr & Hq & Hqt).
  destruct (critic_target_inv _ _ _ _ _ Hy) as (r_used & log_pi & Hlp & Hru & Hyeq).
  pose proof Hsame as (Hc1&Hd1&Ht1&Hal1&Hac1&_&_&_&Hqt1&_).
  rewrite Hc1, Hal1, Hac1, Hqt1 in *.
  exists B, ag1, r_used, log_pi, y.
  split; [done|]. split; [|split; [|done]].
  - destruct (robust (cfg ag)); [|done].
    destruct Hblk as (ro & Hrb & ->). by injection Hru as <-.
  - cbv zeta. split; [done|].
    intros i r dn q1 q2 l Hi Hdn H1 H2 Hl. rewrite Hyeq.
    by apply bellman_lookup.
Qed.

(** C6. [train] changes the target critic only in its last step: the new
    target is [tau * online + (1 - tau) * target], entry by entry, for the
    critic parameters just updated, and [tau], set to 0.005 by the
    constructor together with the initial copy of the critic, is never
    changed. With the online parameters held fixed, [n] applications of the
    rule bring the Euclidean distance between target and online parameters
    to exactly [(1 - tau)^n] times its initial value, in particular not
    above it. *)
Theorem target_soft_update :
  (∀ ag d ag',
     train ag d = Ok ag' →
     tau ag' = tau ag
     ∧ q_critic_target ag'
       = soft_update (tau ag) (q_critic ag') (q_critic_target ag))
  ∧ (∀ kwargs theta0 phi0 psi0 ag,
       init kwargs theta0 phi0 psi0 = Ok ag →
       tau ag = 0.005 ∧ q_critic_target ag = q_critic ag)
  ∧ (∀ tau online target,
       length (soft_update tau online target) = length target
       ∧ ∀ i p t, online !! i = Some p → target !! i = Some t →
           soft_update tau online target !! i
           = Some (tau * p + (1 - tau) * t))
  ∧ (∀ online target n,
       norm2 (vsub (Nat.iter n (soft_update 0.005 online) target) online)
       = (1 - 0.005) ^ n * norm2 (vsub target online)
       ∧ norm2 (vsub (Nat.iter n (soft_update 0.005 online) target) online)
         <= (1 - 0.005) ^ n * norm2 (vsub target online)).
Proof.
  split_and!.
  - intros ag d ag' Htrain.
    destruct (train_frame _ _ _ Htrain)
      as (B & ag1 & r_opt & y & HB & Hblk & Hsame & Hy
          & Hc & Hd & Ht & Hbuf & Hb & Hbo & Hr & Hq & Hqt).
    done.
  - intros kwargs theta0 phi0 psi0 ag Hinit. unfold init in Hinit.
    apply bind_Ok_inv in Hinit as (dl & _ & Hag).
    apply Ok_inv in Hag as <-. by split.
  - intros tau online target. split.
    + apply RealFacts.soft_update_length.
    + apply RealFacts.soft_update_lookup.
  - intros online target n.
    rewrite RealFacts.soft_update_iter_norm by lra. split; [done|lra].
Qed.

(** In robust mode an exception of the computation of [delta] aborts the
    constructor. *)
Lemma init_aborts kwargs theta0 phi0 psi0 e :
  robust kwargs = true →
  compute_delta (Agent.train_std kwargs) (Agent.eval_std kwargs) = Raise e →
  init kwargs theta0 phi0 psi0 = Raise e.
Proof. intros Hrob Hraise. unfold init. by rewrite Hrob, Hraise. Qed.

(** The constructor in robust mode is the computation of [delta] followed
    by the construction of the attributes. *)
Lemma init_robust kwargs theta0 phi0 psi0 :
  robust kwargs = true →
  ∀ x, compute_delta (Agent.train_std kwargs) (Agent.eval_std kwargs) = Ok x →
  ∃ ag, init kwargs theta0 phi0 psi0 = Ok ag ∧ delta ag = x.
Proof.
  intros Hrob x Hx. unfold init. rewrite Hrob, Hx.
  eexists. split; reflexivity.
Qed.

(** C4 (amended). In robust mode a constructed agent carries as [delta] the
    float value of [0.5*(eval_var / train_var + math.log(train_var /
    eval_var) - 1)] on the squares of the two standard deviations, that
    value is not negative, and [train] never changes it. Where the
    computation reaches the assertion, a negative value aborts construction
    with [AssertionError] and any other value is stored. Before that, a
    square out of range aborts construction with [OverflowError], a
    variance that is zero with [ZeroDivisionError], and a quotient
    [train_var / eval_var] that is not positive with [ValueError]. Equal standard deviations
    with a non-zero square give [delta = 0] in every arithmetic that is
    exact where IEEE 754 is. Evaluated without rounding, the expression is
    zero exactly when the two variances are equal and strictly positive
    otherwise. *)
Theorem compute_delta_kl (kwargs : Config) (theta0 phi0 psi0 : list R) :
  robust kwargs = true →
  (∀ ag, init kwargs theta0 phi0 psi0 = Ok ag →
     (∃ train_var eval_var,
        float_pow2 (Agent.train_std kwargs) = Some train_var
        ∧ float_pow2 (Agent.eval_std kwargs) = Some eval_var
        ∧ delta ag = delta_expr train_var eval_var)
     ∧ delta ag >= 0
     ∧ ∀ dr ag', train ag dr = Ok ag' → delta ag' = delta ag)
  ∧ (∀ train_var eval_var,
       float_pow2 (Agent.train_std kwargs) = Some train_var →
       float_pow2 (Agent.eval_std kwargs) = Some eval_var →
       train_var ≠ 0 → eval_var ≠ 0 → 0 < float_div train_var eval_var →
       (delta_expr train_var eval_var < 0 →
          init kwargs theta0 phi0 psi0 = Raise AssertionError)
       ∧ (delta_expr train_var eval_var >= 0 →
            ∃ ag, init kwargs theta0 phi0 psi0 = Ok ag
                  ∧ delta ag = delta_expr train_var eval_var))
  ∧ ((float_pow2 (Agent.train_std kwargs) = None
      ∨ float_pow2 (Agent.eval_std kwargs) = None →
      init kwargs theta0 phi0 psi0 = Raise OverflowError)
     ∧ (∀ train_var eval_var,
          float_pow2 (Agent.train_std kwargs) = Some train_var →
          float_pow2 (Agent.eval_std kwargs) = Some eval_var →
          (train_var = 0 ∨ eval_var = 0 →
           init kwargs theta0 phi0 psi0 = Raise ZeroDivisionError)
          ∧ (train_var ≠ 0 → eval_var ≠ 0 →
             float_div train_var eval_var <= 0 →
             init kwargs theta0 phi0 psi0 = Raise ValueError)))
  ∧ (exact_at_one → Agent.train_std kwargs = Agent.eval_std kwargs →
       ∀ v, float_pow2 (Agent.train_std kwargs) = Some v → v ≠ 0 →
            ∃ ag, init kwargs theta0 phi0 psi0 = Ok ag ∧ delta ag = 0)
  ∧ (∀ train_std eval_std : R,
       train_std ≠ 0 → eval_std ≠ 0 →
       let dl := 0.5 * (eval_std ^ 2 / train_std ^ 2
                        + ln (train_std ^ 2 / eval_std ^ 2) - 1) in
       @delta_expr exact_float (train_std ^ 2) (eval_std ^ 2) = dl
       ∧ 0 <= dl
       ∧ (dl = 0 ↔ eval_std ^ 2 = train_std ^ 2)
       ∧ (eval_std ^ 2 ≠ train_std ^ 2 → 0 < dl)).
Proof.
  intros Hrob. split_and!.
  - intros ag Hinit. unfold init in Hinit. rewrite Hrob in Hinit.
    apply bind_Ok_inv in Hinit as (x & Hx & Hag). apply Ok_inv in Hag as <-.
    apply compute_delta_inv in Hx
      as (tv & ev & Ht & He & _ & _ & _ & Hd & Hge).
    split_and!.
    + by exists tv, ev.
    + done.
    + intros dr ag' Htrain.
      destruct (train_frame _ _ _ Htrain)
        as (B & ag1 & r_opt & y & HB & Hblk & Hsame & Hy & Hc & Hdl & _).
      exact Hdl.
  - intros tv ev Ht He Htv Hev Hq.
    pose proof (compute_delta_steps _ _ _ _ Ht He Htv Hev Hq) as Hsteps.
    destruct (check_delta_cases (delta_expr tv ev)) as [Hneg Hnn]. split.
    + intros Hlt. apply init_aborts; [done|]. by rewrite Hsteps, Hneg.
    + intros Hge. apply init_robust; [done|]. by rewrite Hsteps, Hnn.
  - intros Hn. apply init_aborts; [done|].
    by apply compute_delta_raises.
  - intros tv ev Ht He.
    destruct (compute_delta_raises (Agent.train_std kwargs)
                (Agent.eval_std kwargs)) as [_ Hrest].
    destruct (Hrest tv ev Ht He) as [Hz Hl]. split.
    + intros Hzero. apply init_aborts; [done|]. by apply Hz.
    + intros Htv Hev Hq. apply init_aborts; [done|]. by apply Hl.
  - intros (Hdiv & Hlog & Hadd & Hsub & Hmul) Heq v Hv Hne.
    apply init_robust; [done|].
    assert (Hexpr : delta_expr v v = 0).
    { unfold delta_expr. by rewrite (Hdiv v Hne), Hlog, Hadd, Hsub, Hmul. }
    rewrite (compute_delta_steps _ _ v v); try done.
    + rewrite Hexpr. apply check_delta_cases. lra.
    + by rewrite <- Heq.
    + rewrite (Hdiv v Hne). lra.
  - intros train_std eval_std Ht He dl.
    destruct (delta_expr_exact train_std eval_std Ht He) as (Hv & Hnn & Hz).
    fold dl in Hv, Hnn, Hz. split_and!; try done.
    intros Hne. destruct Hnn as [|Heq]; [done|]. symmetry in Heq.
    by apply Hz in Heq.
Qed.

End WithTorch.

(** The theorems at work on the small instance. *)
#[local] Existing Instance Toy.toy_torch.

Lemma compute_delta_kl_witness :
  (∃ ag, @init Toy.toy_torch exact_float (Toy.toy_cfg true) [] [] [] = Ok ag
         ∧ delta ag = 0.5 * (2 ^ 2 / 1 ^ 2 + ln (1 ^ 2 / 2 ^ 2) - 1)
         ∧ 0 < delta ag)
  ∧ @init Toy.toy_torch Toy.low_float Toy.toy_cfg_equal [] [] []
    = Raise AssertionError.
Proof.
  split.
  - destruct (@compute_delta_kl Toy.toy_torch exact_float (Toy.toy_cfg true)
                [] [] [] eq_refl)
      as (_ & Hrun & _ & _ & Hexact).
    destruct (Hexact 1 2 ltac:(lra) ltac:(lra)) as (Hv & Hnn & _ & Hpos).
    destruct (Hrun (1 ^ 2) (2 ^ 2) eq_refl eq_refl ltac:(lra) ltac:(lra))
      as [_ Hok].
    { cbn [float_div exact_float]. lra. }
    destruct Hok as (ag & Hag & Hd).
    { rewrite Hv. lra. }
    exists ag. rewrite Hd, Hv. split_and!; [done|done|]. apply Hpos. lra.
  - destruct (@compute_delta_kl Toy.toy_torch Toy.low_float Toy.toy_cfg_equal
                [] [] [] eq_refl)
      as (_ & Hrun & _).
    destruct (Hrun (1 ^ 2) (1 ^ 2) eq_refl eq_refl ltac:(lra) ltac:(lra))
      as [Hneg _].
    { cbn [float_div Toy.low_float]. lra. }
    apply Hneg. unfold delta_expr.
    cbn [float_div float_log float_add float_sub float_mul Toy.low_float].
    replace (1 ^ 2 / 1 ^ 2) with 1 by lra. rewrite ln_1. lra.
Defined.

Lemma toy_train_ok b :
  is_ok (@train Toy.toy_torch (Toy.toy_agent b) Toy.toy_draws) = true.
Proof. by destruct b. Qed.

Lemma robust_dual_reward_witness :
  ∃ ag', @train Toy.toy_torch (Toy.toy_agent true) Toy.toy_draws = Ok ag'
         ∧ beta_optimizer ag' = 10%nat ∧ beta ag' = [0].
Proof.
  destruct (@train Toy.toy_torch (Toy.toy_agent true) Toy.toy_draws)
    as [ag'|e] eqn:Ht.
  - exists ag'. split; [done|].
    destruct (robust_dual_reward (Toy.toy_agent true) Toy.toy_draws ag'
                eq_refl Ht)
      as (B & rs & lp & y & _ & _ & _ & _ & Hit & _).
    simpl in Hit. by injection Hit as -> ->.
  - pose proof (toy_train_ok true) as Hok. rewrite Ht in Hok. done.
Defined.

Lemma critic_target_bellman_witness :
  ∃ ag' B target_Q,
    @train Toy.toy_torch (Toy.toy_agent false) Toy.toy_draws = Ok ag'
    ∧ Replay.sample_with Toy.toy_buffer 1 [1%nat] = Ok B
    ∧ q_critic ag' = (opt_step 0%nat (q_loss B target_Q) []).2.
Proof.
  destruct (@train Toy.toy_torch (Toy.toy_agent false) Toy.toy_draws)
    as [ag'|e] eqn:Ht.
  - destruct (critic_target_bellman (Toy.toy_agent false) Toy.toy_draws ag' Ht)
      as (B & ag1 & r_used & lp & y & HB & _ & _ & Hq).
    by exists ag', B, y.
  - pose proof (toy_train_ok false) as Hok. rewrite Ht in Hok. done.
Defined.

End AgentProofs.

(** ** Adapters, actor and reward model *)

Module AdapterProofs.
Import Adapter.
Local Open Scope R_scope.

(** C8. With [max_action > 0], scaling an agent action to the environment
    range and back returns the action: the adapter multiplies every entry
    by [max_action], the reverse adapter divides by it. *)
Theorem adapter_round_trip (a : list R) (max_action : R) :
  0 < max_action →
  Action_adapter_reverse (Action_adapter a max_action) max_action = a
  ∧ (∀ i x, a !! i = Some x →
       Action_adapter a max_action !! i = Some (x * max_action))
  ∧ (∀ i y, a !! i = Some y →
       Action_adapter_reverse a max_action !! i = Some (y / max_action)).
Proof.
  intros Hm. unfold Action_adapter_reverse, Action_adapter. split_and!.
  - rewrite <-list_fmap_compose.
    rewrite (list_fmap_ext _ id) by (intros; unfold compose, id; field; lra).
    apply list_fmap_id.
  - intros i x Hx. by rewrite list_lookup_fmap, Hx.
  - intros i y Hy. by rewrite list_lookup_fmap, Hy.
Qed.

Lemma adapter_round_trip_witness :
  Action_adapter_reverse (Action_adapter [0.5; -1] 2) 2 = [0.5; -1].
Proof. apply (adapter_round_trip [0.5; -1] 2). lra. Defined.

End AdapterProofs.

Module ActorProofs.
Import Tensor Actor.
Local Open Scope R_scope.

Section WithTorch.
Context `{Torch}.

Lemma dist_log_prob_lookup mu std u i j mrow srow urow m s x :
  mu !! i = Some mrow → std !! i = Some srow → u !! i = Some urow →
  mrow !! j = Some m → srow !! j = Some s → urow !! j = Some x →
  ∃ row, dist_log_prob mu std u !! i = Some row
         ∧ row !! j = Some (normal_log_prob m s x).
Proof.
  intros Hm Hs Hu Hmj Hsj Hxj. unfold dist_log_prob.
  rewrite !lookup_zip_with, Hm, Hs, Hu. simpl. eexists. split; [done|].
  rewrite lookup_zip_with, lookup_zip_with, Hmj, Hsj, Hxj. done.
Qed.

Lemma tmap_exp_pos (xs : list (list R)) i j row s :
  tmap exp xs !! i = Some row → row !! j = Some s → 0 < s.
Proof.
  unfold tmap.
  intros (row0 & -> & _)%list_lookup_fmap_Some
         (x & -> & _)%list_lookup_fmap_Some.
  apply exp_pos.
Qed.

Lemma tmap_tmap f g xs : tmap f (tmap g xs) = tmap (f ∘ g) xs.
Proof.
  unfold tmap. rewrite <-list_fmap_compose. apply list_fmap_ext.
  intros i row _. unfold compose. by rewrite <-list_fmap_compose.
Qed.

Lemma tmap_ext f g xs : (∀ x, f x = g x) → tmap f xs = tmap g xs.
Proof.
  intros Hfg. unfold tmap. apply list_fmap_ext. intros i row _.
  apply list_fmap_ext. intros; apply Hfg.
Qed.

(** C3. With [with_logprob] set, [forward] returns, per batch row, the sum
    over the action dimensions of the Gaussian log-density of the
    pre-squash sample [u] minus the sum of [2 * (ln 2 - u - softplus (-2 *
    u))]; that correction equals [ln (1 - tanh u ^ 2)], so the subtracted
    sum is the sum of [ln (1 - a ^ 2)] over the entries of the returned
    action. Without [with_logprob] the second component is [None]. *)
Theorem forward_log_prob theta state deterministic noise :
  let mu := mu_of theta state in
  let std := std_of theta state in
  let u := pre_squash theta state deterministic noise in
  let out := forward theta state deterministic true noise in
  out.1 = tmap tanh u
  ∧ out.2 = Some (zip_with Rminus (row_sum (dist_log_prob mu std u))
                    (row_sum (tmap squash_correction u)))
  ∧ (∀ x, squash_correction x = 2 * (ln 2 - x - softplus (-2 * x))
          ∧ squash_correction x = ln (1 - tanh x ^ 2))
  ∧ out.2 = Some (zip_with Rminus (row_sum (dist_log_prob mu std u))
                    (row_sum (tmap (λ a, ln (1 - a ^ 2)) out.1)))
  ∧ (∀ i j mrow srow urow m s x,
       mu !! i = Some mrow → std !! i = Some srow → u !! i = Some urow →
       mrow !! j = Some m → srow !! j = Some s → urow !! j = Some x →
       ∃ row, dist_log_prob mu std u !! i = Some row
              ∧ row !! j = Some (normal_log_prob m s x)
              ∧ 0 < s
              ∧ exp (normal_log_prob m s x)
                = / (s * sqrt (2 * PI)) * exp (- (x - m) ^ 2 / (2 * s ^ 2)))
  ∧ (forward theta state deterministic false noise).2 = None.
Proof.
  intros mu std u out. split_and!; try done.
  - intros x. split; [done|]. apply RealFacts.squash_correction_tanh.
  - unfold out, forward. cbn [fst snd]. fold u mu std. do 3 f_equal.
    rewrite tmap_tmap. apply tmap_ext. intros x. unfold compose.
    apply RealFacts.squash_correction_tanh.
  - intros i j mrow srow urow m s x Hm Hs Hu Hmj Hsj Hxj.
    destruct (dist_log_prob_lookup mu std u i j mrow srow urow m s x)
      as (row & Hrow & Hj); try done.
    assert (Hpos : 0 < s) by (by eapply tmap_exp_pos).
    exists row. split_and!; try done.
    by apply RealFacts.normal_log_prob_density.
Qed.

(** C9. With [deterministic] set, the pre-squash sample is the mean and the
    action is its [tanh]; the noise is not read, so [forward] and
    [select_action] return the same result whatever the random draws. *)
Theorem deterministic_action theta state with_logprob noise noise' :
  pre_squash theta state true noise = mu_of theta state
  ∧ (forward theta state true with_logprob noise).1
    = tmap tanh (mu_of theta state)
  ∧ forward theta state true with_logprob noise
    = forward theta state true with_logprob noise'
  ∧ (∀ ag s,
       Agent.select_action ag s true noise
       = Ok (tanh <$> mu_layer (Agent.actor ag) (a_net (Agent.actor ag) s))
       ∧ Agent.select_action ag s true noise
         = Agent.select_action ag s true noise').
Proof. by split_and!. Qed.

End WithTorch.
End ActorProofs.

Module RewardProofs.
Import Tensor Reward.
Local Open Scope R_scope.

Section WithTorch.
Context `{Torch}.

(** C10. For a reward type other than ['continuous'] neither method
    returns a value. [forward] raises at the subscript of the linear layer;
    whatever a subscript would return, the [return r] after it reads a
    local that the branch never binds. [sample] has no branch for the type
    and raises at its [return r]. *)
Theorem discrete_reward_fails psi rtype state action noise num noise2 :
  rtype ≠ "continuous" →
  forward psi rtype state action noise = Raise TypeError
  ∧ (∀ getitem,
       is_ok (forward_with getitem psi rtype state action noise) = false)
  ∧ (∀ getitem logits,
       getitem (r_layer psi) (rnet psi <$> cat1 state action) = Ok logits →
       forward_with getitem psi rtype state action noise
       = Raise UnboundLocalError)
  ∧ sample psi rtype state action num noise2 = Raise UnboundLocalError.
Proof.
  intros Hne. unfold forward, forward_with, sample.
  destruct (decide (rtype = "continuous")) as [|_]; [done|].
  split_and!; try done.
  - intros getitem. by destruct (getitem _ _).
  - intros getitem logits ->. done.
Qed.

End WithTorch.

Lemma discrete_reward_fails_witness :
  @forward Toy.toy_torch [] "discrete" [[1]] [[0.5]] (λ _, 0)
  = Raise TypeError
  ∧ @sample Toy.toy_torch [] "discrete" [[1]] [[0.5]] 50 (λ _ _, 0)
    = Raise UnboundLocalError.
Proof.
  destruct (@discrete_reward_fails Toy.toy_torch [] "discrete" [[1]] [[0.5]]
              (λ _, 0) 50%nat (λ _ _, 0) ltac:(done))
    as (Hf & _ & _ & Hs).
  by split.
Defined.

End RewardProofs.

(** ** Reward shaping *)

Module ShapingProofs.
Import Shaping.
Local Open Scope R_scope.

(** X1. For the environment indices 1, 4 and 5 the shaped reward is never
    at or below -100 and never below the raw reward, rewards above -100
    pass unchanged, and shaping twice is shaping once. *)
Theorem Reward_adapter_clip (r : R) (EnvIdex : Z) :
  EnvIdex = 1%Z ∨ EnvIdex = 4%Z ∨ EnvIdex = 5%Z →
  -100 < Reward_adapter r EnvIdex
  ∧ r <= Reward_adapter r EnvIdex
  ∧ (-100 < r → Reward_adapter r EnvIdex = r)
  ∧ (r <= -100 →
       Reward_adapter r EnvIdex = if decide (EnvIdex = 1%Z) then -10 else -1)
  ∧ Reward_adapter (Reward_adapter r EnvIdex) EnvIdex
    = Reward_adapter r EnvIdex.
Proof.
  intros Hidx. unfold Reward_adapter.
  repeat case_decide; split_and!; intros; try lra; try lia; done.
Qed.

Lemma Reward_adapter_clip_witness :
  Reward_adapter (-250) 1 = -10 ∧ Reward_adapter (-250) 4 = -1.
Proof.
  split.
  - destruct (Reward_adapter_clip (-250) 1 ltac:(lia)) as (_ & _ & _ & H & _).
    rewrite H by lra. done.
  - destruct (Reward_adapter_clip (-250) 4 ltac:(lia)) as (_ & _ & _ & H & _).
    rewrite H by lra. done.
Defined.

(** X2. The shaping for index 1 does not preserve the order of rewards: a
    raw reward of at most -100 is shaped to -10, above the shaped value of
    every raw reward strictly between -100 and -10. For index 0 the shaping
    is the increasing affine map [(r + 8) / 8], undone by [8 * y - 8]; for
    an index outside 0, 1, 4, 5 it is the identity. *)
Theorem Reward_adapter_order (r1 r2 : R) :
  (r1 <= -100 → -100 < r2 < -10 →
     r1 < r2 ∧ Reward_adapter r2 1 < Reward_adapter r1 1)
  ∧ (r1 < r2 → Reward_adapter r1 0 < Reward_adapter r2 0)
  ∧ 8 * Reward_adapter r1 0 - 8 = r1
  ∧ (∀ EnvIdex, EnvIdex ≠ 0%Z → EnvIdex ≠ 1%Z → EnvIdex ≠ 4%Z →
       EnvIdex ≠ 5%Z → Reward_adapter r1 EnvIdex = r1).
Proof.
  unfold Reward_adapter. split_and!.
  - intros H1 H2. simpl.
    rewrite (decide_True (P := r1 <= -100)) by done.
    rewrite (decide_False (P := r2 <= -100)) by lra. lra.
  - intros Hlt. simpl. lra.
  - simpl. lra.
  - intros idx H0 H1 H4 H5.
    rewrite !decide_False by lia. done.
Qed.

End ShapingProofs.

(** ** Bounds of the policy *)

Module BoundsProofs.
Import Tensor Actor.
Local Open Scope R_scope.

Lemma tanh_bounds x : -1 < tanh x < 1.
Proof.
  pose proof (RealFacts.cosh_pos x) as Hc.
  assert (Hlo : - cosh x < sinh x).
  { unfold cosh, sinh. pose proof (exp_pos x). lra. }
  assert (Hhi : sinh x < cosh x).
  { unfold cosh, sinh. pose proof (exp_pos (- x)). lra. }
  unfold tanh. split.
  - apply (Rmult_lt_reg_r (cosh x)); [done|].
    replace (sinh x / cosh x * cosh x) with (sinh x) by (field; lra). lra.
  - apply (Rmult_lt_reg_r (cosh x)); [done|].
    replace (sinh x / cosh x * cosh x) with (sinh x) by (field; lra). lra.
Qed.

Lemma exp_le_mono x y : x <= y → exp x <= exp y.
Proof.
  intros [Hlt| ->]; [|lra]. left. by apply exp_increasing.
Qed.

Lemma clamp_bounds x lo hi : lo <= hi → lo <= clamp x lo hi <= hi.
Proof.
  intros Hle. unfold clamp, Rmin, Rmax.
  repeat destruct (Rle_dec _ _); lra.
Qed.

Lemma tmap_elem (f : R → R) (xs : list (list R)) i j row y :
  tmap f xs !! i = Some row → row !! j = Some y →
  ∃ row0 x, xs !! i = Some row0 ∧ row0 !! j = Some x ∧ y = f x.
Proof.
  unfold tmap.
  intros (row0 & -> & Hrow0)%list_lookup_fmap_Some
         (x & -> & Hx)%list_lookup_fmap_Some.
  by exists row0, x.
Qed.

Section WithTorch.
Context `{Torch}.

Lemma forward_entry_bounds theta state deterministic with_logprob noise
    i j row a :
  (forward theta state deterministic with_logprob noise).1 !! i = Some row →
  row !! j = Some a → -1 < a < 1.
Proof.
  intros Hrow Ha. unfold forward in Hrow. cbn [fst] in Hrow.
  destruct (tmap_elem _ _ _ _ _ _ Hrow Ha) as (row0 & x & _ & _ & ->).
  apply tanh_bounds.
Qed.

Lemma select_action_ok ag state deterministic noise :
  ∃ a, Agent.select_action ag state deterministic noise = Ok a
       ∧ Forall (λ x, -1 < x < 1) a.
Proof.
  unfold Agent.select_action.
  destruct (forward (Agent.actor ag) [state] deterministic false noise)
    as [a lp] eqn:Hf.
  assert (Hlen : length a = 1%nat).
  { apply (f_equal fst) in Hf. cbn [fst] in Hf. rewrite <-Hf.
    unfold forward. cbn [fst]. unfold tmap, pre_squash, mu_of, dist_rsample.
    destruct deterministic; rewrite ?length_fmap, ?length_imap,
      ?length_zip_with, ?length_fmap; done. }
  destruct a as [|row [|]]; try done. simpl.
  exists row. split; [done|].
  apply Forall_lookup. intros j x Hx.
  apply (forward_entry_bounds (Agent.actor ag) [state] deterministic false
           noise 0%nat j row x); [by rewrite Hf|done].
Qed.

(** X3. Whatever the state, the flags and the noise, every entry of the
    action returned by [Actor.forward] lies strictly between -1 and 1;
    [select_action] always returns such an action, and for [max_action > 0]
    its image under [Action_adapter] lies strictly between [-max_action]
    and [max_action]. *)
Theorem action_bounds (max_action : R) :
  0 < max_action →
  (∀ theta state deterministic with_logprob noise i j row a,
     (forward theta state deterministic with_logprob noise).1 !! i = Some row →
     row !! j = Some a → -1 < a < 1)
  ∧ (∀ ag state deterministic noise,
       ∃ a, Agent.select_action ag state deterministic noise = Ok a
            ∧ Forall (λ x, -1 < x < 1) a
            ∧ Forall (λ y, - max_action < y < max_action)
                (Adapter.Action_adapter a max_action)).
Proof.
  intros Hm. split; [apply forward_entry_bounds|].
  intros ag state det noise.
  destruct (select_action_ok ag state det noise) as (a & Ha & Hrow).
  exists a. split_and!; [done|done|].
  unfold Adapter.Action_adapter. apply Forall_fmap.
  eapply Forall_impl; [exact Hrow|]. simpl. intros x [Hlo Hhi]. nra.
Qed.

(** X4. Every standard deviation used by [Actor.forward] lies between
    [exp (-20)] and [exp 2], so it is positive, a reparameterized sample
    deviates from the mean by at most [exp 2] times the size of its noise,
    and the Gaussian log-density is at most [20 - ln (sqrt (2 * PI))]. *)
Theorem std_bounds theta state i j row s :
  std_of theta state !! i = Some row → row !! j = Some s →
  exp (-20) <= s <= exp 2
  ∧ 0 < s
  ∧ (∀ mu eps, Rabs (rsample mu s eps - mu) <= exp 2 * Rabs eps)
  ∧ (∀ mu u, normal_log_prob mu s u <= 20 - ln (sqrt (2 * PI))).
Proof.
  intros Hrow Hs. unfold std_of in Hrow.
  destruct (tmap_elem _ _ _ _ _ _ Hrow Hs) as (row0 & x & Hrow0 & Hx & ->).
  destruct (tmap_elem _ _ _ _ _ _ Hrow0 Hx) as (row1 & l & _ & _ & ->).
  pose proof (clamp_bounds l LOG_STD_MIN LOG_STD_MAX) as Hc.
  cbv beta. unfold LOG_STD_MIN, LOG_STD_MAX in *.
  destruct Hc as [Hlo Hhi]; [lra|].
  set (c := clamp l (-20) 2) in *.
  pose proof (exp_pos c) as Hpos.
  assert (Hb : exp (-20) <= exp c <= exp 2)
    by (split; by apply exp_le_mono).
  split_and!; [apply Hb|apply Hb|done| |].
  - intros mu eps. unfold rsample.
    replace (mu + exp c * eps - mu) with (exp c * eps) by lra.
    rewrite Rabs_mult, (Rabs_right (exp c)) by lra.
    apply Rmult_le_compat_r; [apply Rabs_pos|apply Hb].
  - intros mu u. unfold normal_log_prob. rewrite ln_exp.
    assert (Hsq : 0 < exp c ^ 2) by (apply pow_lt; lra).
    assert (0 <= (u - mu) ^ 2 / (2 * exp c ^ 2)).
    { apply Rmult_le_pos; [apply pow2_ge_0|].
      left. apply Rinv_0_lt_compat. lra. }
    unfold Rdiv in *. rewrite Ropp_mult_distr_l_reverse. lra.
Qed.

End WithTorch.

Lemma action_bounds_witness :
  ∃ a, @Agent.select_action Toy.toy_torch (Toy.toy_agent false) [0.3] false
         (λ _ _, 0.7) = Ok a
       ∧ Forall (λ y, - 2 < y < 2) (Adapter.Action_adapter a 2).
Proof.
  destruct (@action_bounds Toy.toy_torch 2 ltac:(lra)) as [_ Hsel].
  destruct (Hsel (Toy.toy_agent false) [0.3] false (λ _ _, 0.7))
    as (a & Ha & _ & Hb).
  by exists a.
Defined.

Lemma std_bounds_witness :
  exp (-20) <= exp (clamp 0.3 (-20) 2) <= exp 2.
Proof.
  apply (@std_bounds Toy.toy_torch [] [[0.3]] 0%nat 0%nat
           [exp (clamp 0.3 LOG_STD_MIN LOG_STD_MAX)]
           (exp (clamp 0.3 (-20) 2))); reflexivity.
Defined.

End BoundsProofs.

(** ** The dual objective *)

Module DualProofs.
Import Tensor Agent.
Local Open Scope R_scope.

Lemma Rsum_le (f g : R → R) xs :
  Forall (λ x, f x <= g x) xs → Rsum (f <$> xs) <= Rsum (g <$> xs).
Proof.
  induction 1 as [|x xs Hx _ IH]; [unfold Rsum; simpl; lra|].
  rewrite !fmap_cons, !RealFacts.Rsum_cons. lra.
Qed.

Lemma Rsum_const c (xs : list R) :
  Rsum ((λ _, c) <$> xs) = INR (length xs) * c.
Proof.
  induction xs as [|x xs IH]; [unfold Rsum; simpl; lra|].
  rewrite fmap_cons, RealFacts.Rsum_cons, IH.
  change (length (x :: xs)) with (S (length xs)). rewrite S_INR. lra.
Qed.

Lemma Rsum_affine a c (xs : list R) :
  Rsum ((λ x, a * x + c) <$> xs) = a * Rsum xs + INR (length xs) * c.
Proof.
  induction xs as [|x xs IH]; [unfold Rsum; simpl; lra|].
  rewrite fmap_cons, !RealFacts.Rsum_cons, IH.
  change (length (x :: xs)) with (S (length xs)). rewrite S_INR. lra.
Qed.

Lemma INR_length_pos {A} (xs : list A) : xs ≠ [] → 0 < INR (length xs).
Proof.
  intros Hne. destruct xs; [done|]. apply lt_0_INR. simpl. lia.
Qed.

(** Jensen's inequality for the exponential on a finite list. *)
Lemma Rsum_exp_mean xs :
  xs ≠ [] → INR (length xs) * exp (mean xs) <= Rsum (exp <$> xs).
Proof.
  intros Hne. pose proof (INR_length_pos xs Hne) as Hn.
  set (m := mean xs). pose proof (exp_pos m) as Hm.
  transitivity (Rsum ((λ x, exp m * x + exp m * (1 - m)) <$> xs)).
  - rewrite Rsum_affine. subst m. unfold mean.
    apply Req_le. field. lra.
  - apply Rsum_le, Forall_forall. intros x _.
    pose proof (exp_ineq1_le (x - m)) as Hx.
    replace (exp x) with (exp m * exp (x - m))
      by (rewrite <-exp_plus; f_equal; lra).
    nra.
Qed.

Lemma Rsum_exp_upper xs M :
  Forall (λ x, x <= M) xs → Rsum (exp <$> xs) <= INR (length xs) * exp M.
Proof.
  intros Hall. rewrite <-Rsum_const. apply Rsum_le.
  eapply Forall_impl; [done|]. intros x Hx. by apply BoundsProofs.exp_le_mono.
Qed.

Lemma ln_le_mono x y : 0 < x → x <= y → ln x <= ln y.
Proof.
  intros Hx [Hlt| ->]; [|lra]. left. by apply ln_increasing.
Qed.

(** The dual objective of one row, for a positive dual variable [b]: it
    lies between any lower bound of the sampled rewards and their mean,
    both lowered by [b * dl]. *)
Lemma dual_row_bounds (row : list R) (b dl lo : R) :
  row ≠ [] → 0 < b → Forall (λ x, lo <= x) row →
  let g := - b * (logsumexp ((λ x, - x / b) <$> row) - ln (INR (length row)))
           - b * dl in
  lo - b * dl <= g <= mean row - b * dl.
Proof.
  intros Hne Hb Hlo g.
  pose proof (INR_length_pos row Hne) as Hn.
  set (ys := (λ x, - x / b) <$> row).
  assert (Hys : ys ≠ []) by (unfold ys; by destruct row).
  assert (Hlen : length ys = length row) by (unfold ys; by rewrite length_fmap).
  assert (Hmean : mean ys = - mean row / b).
  { unfold mean. rewrite Hlen. unfold ys.
    rewrite (list_fmap_ext _ (λ x, (- / b) * x + 0) row)
      by (intros; simpl; field; lra).
    rewrite Rsum_affine. field. lra. }
  pose proof (Rsum_exp_mean ys Hys) as Hj. rewrite Hlen, Hmean in Hj.
  assert (Hup : Rsum (exp <$> ys) <= INR (length row) * exp (- lo / b)).
  { rewrite <-Hlen. apply Rsum_exp_upper. unfold ys. apply Forall_fmap.
    eapply Forall_impl; [exact Hlo|]. simpl. intros x Hx.
    unfold Rdiv. apply Rmult_le_compat_r; [left; by apply Rinv_0_lt_compat|].
    lra. }
  assert (Hpos : 0 < INR (length row) * exp (- mean row / b)).
  { apply Rmult_lt_0_compat; [done|apply exp_pos]. }
  assert (Hl1 : ln (INR (length row)) + - mean row / b
                <= logsumexp ys).
  { unfold logsumexp. rewrite <-(ln_exp (- mean row / b)) at 1.
    rewrite <-ln_mult by (done || apply exp_pos). by apply ln_le_mono. }
  assert (Hl2 : logsumexp ys <= ln (INR (length row)) + - lo / b).
  { unfold logsumexp. rewrite <-(ln_exp (- lo / b)) at 1.
    rewrite <-ln_mult by (done || apply exp_pos).
    apply ln_le_mono; [lra|done]. }
  unfold g. fold ys.
  assert (Hm1 : b * (- mean row / b) = - mean row) by (field; lra).
  assert (Hm2 : b * (- lo / b) = - lo) by (field; lra).
  split; nra.
Qed.

(** X5. The robust reward is pessimistic. For every batch row with at
    least one sampled reward, the value of [dual_func] at the dual variable
    [exp beta] is at most the mean of the row's sampled rewards minus
    [exp beta * delta] and at least their least value minus [exp beta *
    delta]; so with [delta >= 0] it never exceeds the mean, and on a row of
    equal rewards [c] it is [c - exp beta * delta]. *)
Theorem dual_func_pessimistic (dl : R) (r_sample : list (list R))
    (beta : list R) (n i : nat) (row : list R) (b lo : R) :
  (0 < n)%nat →
  Forall (λ row, length row = n) r_sample →
  r_sample !! i = Some row → beta !! i = Some b →
  Forall (λ x, lo <= x) row →
  ∃ g, dual_func dl r_sample r_sample (exp <$> beta) !! i = Some g
       ∧ lo - exp b * dl <= g
       ∧ g <= mean row - exp b * dl
       ∧ (0 <= dl → g <= mean row)
       ∧ (Forall (λ x, x = lo) row → g = lo - exp b * dl).
Proof.
  intros Hn Hall Hrow Hb Hlo.
  rewrite (AgentProofs.dual_func_lookup _ _ n _ i row b) by done.
  assert (Hlen : length row = n)
    by (by eapply Forall_lookup_1 in Hall).
  assert (Hne : row ≠ []) by (destruct row; simpl in *; [lia|done]).
  pose proof (exp_pos b) as Hpos.
  destruct (dual_row_bounds row (exp b) dl lo Hne Hpos Hlo) as [H1 H2].
  rewrite Hlen in *.
  eexists. split_and!; [done|exact H1|exact H2| |].
  - intros Hdl. nra.
  - intros Heq.
    assert (Hmean : mean row = lo).
    { unfold mean. rewrite (list_fmap_id row) || idtac.
      assert (Hsum : Rsum row = INR (length row) * lo).
      { clear -Heq. induction Heq as [|x xs -> _ IH];
          [unfold Rsum; simpl; lra|].
        rewrite RealFacts.Rsum_cons, IH.
        change (length (lo :: xs)) with (S (length xs)).
        rewrite S_INR. lra. }
      rewrite Hsum. field.
      pose proof (INR_length_pos row Hne). lra. }
    rewrite Hmean in H2. lra.
Qed.

Lemma dual_func_pessimistic_witness :
  ∃ g, dual_func 0.375 [[1; 3]] [[1; 3]] (exp <$> [0]) !! 0%nat = Some g
       ∧ 1 - exp 0 * 0.375 <= g ∧ g <= mean [1; 3].
Proof.
  destruct (dual_func_pessimistic 0.375 [[1; 3]] [0] 2 0 [1; 3] 0 1)
    as (g & Hg & Hlo & _ & Hhi & _).
  - lia.
  - by repeat constructor.
  - reflexivity.
  - reflexivity.
  - repeat constructor; lra.
  - exists g. split_and!; [done|done|]. apply Hhi. lra.
Defined.

End DualProofs.

(** ** Outcomes of a training step *)

Module TrainProofs.
Import Tensor Agent AgentProofs.
Local Open Scope R_scope.

Section WithTorch.
Context `{Torch}.

Lemma forward_logp_some theta state det noise :
  ∃ lp, (Actor.forward theta state det true noise).2 = Some lp.
Proof. by eexists. Qed.

Lemma reward_forward_ok psi state action noise :
  ∃ r_pred, Reward.forward psi "continuous" state action noise = Ok r_pred.
Proof. by eexists. Qed.

Lemma reward_sample_ok psi state action num noise :
  ∃ rs, Reward.sample psi "continuous" state action num noise = Ok rs.
Proof. by eexists. Qed.

Lemma robust_block_ok ag B d :
  rtype (cfg ag) = "continuous" →
  ∃ ag1 ro, robust_block ag B d = Ok (ag1, ro).
Proof.
  intros Hrt. unfold robust_block. rewrite Hrt.
  destruct (reward_forward_ok (reward ag) (Replay.b_s B) (Replay.b_a B)
              (eps_r d)) as [r_pred ->].
  cbn [mbind result_bind].
  set (ag0 := set_reward ag _).
  assert (Hrt0 : rtype (cfg ag0) = "continuous") by done.
  rewrite Hrt0.
  destruct (reward_sample_ok (reward ag0) (Replay.b_s B) (Replay.b_a B) 50
              (eps_sample d)) as [rs ->].
  cbn [mbind result_bind]. by eexists _, _.
Qed.

Lemma robust_block_discrete ag B d :
  rtype (cfg ag) ≠ "continuous" → robust_block ag B d = Raise TypeError.
Proof.
  intros Hrt. unfold robust_block, Reward.forward, Reward.forward_with.
  by rewrite decide_False by done.
Qed.

Lemma critic_target_ok ag B r_opt d :
  (robust (cfg ag) = true → is_Some r_opt) →
  ∃ y, critic_target ag B r_opt d = Ok y.
Proof.
  intros Hro. unfold critic_target. cbn.
  destruct (robust (cfg ag)); [|by eexists].
  destruct Hro as [ro ->]; [done|]. by eexists.
Qed.

Lemma train_succeeds ag d :
  Replay.wf (replay_buffer ag) →
  Forall (λ i, (i < Replay.size (replay_buffer ag))%nat) (ind d) →
  (0 < Replay.size (replay_buffer ag))%nat →
  (robust (cfg ag) = true → rtype (cfg ag) = "continuous") →
  ∃ ag', train ag d = Ok ag'.
Proof.
  intros Hwf Hind Hpos Hrt.
  destruct (ReplayProofs.gather_ok _ _ Hwf Hind) as (B & HB & _).
  unfold train, Replay.sample_with, Replay.randint.
  rewrite decide_True by lia. cbn [mbind result_bind]. rewrite HB.
  cbn [mbind result_bind].
  assert (∃ ag1 r_opt,
    (if robust (cfg ag)
     then robust_block ag B d
          ≫= (λ '(ag', r_opt), mret (ag', Some r_opt))
     else mret (ag, None)) = Ok (ag1, r_opt)
    ∧ (robust (cfg ag1) = true → is_Some r_opt))
    as (ag1 & r_opt & -> & Hro).
  { destruct (robust (cfg ag)) eqn:Hrob.
    - destruct (robust_block_ok ag B d (Hrt eq_refl)) as (ag1 & ro & Hrb).
      rewrite Hrb. cbn [mbind result_bind]. by eexists _, _.
    - exists ag, None. split; [done|]. by rewrite Hrob. }
  cbn [mbind result_bind].
  destruct (critic_target_ok ag1 B r_opt d Hro) as [y ->].
  cbn [mbind result_bind]. unfold update_actor.
  destruct (adaptive_alpha _); [|by eexists].
  unfold update_alpha.
  destruct (forward_logp_some (actor (update_critic ag1 B y))
              (Replay.b_s B) false (eps_pi d)) as [lp ->].
  cbn [mbind result_bind]. destruct (opt_step _ _ _). by eexists.
Qed.

Lemma train_fails_discrete ag d :
  Replay.wf (replay_buffer ag) →
  Forall (λ i, (i < Replay.size (replay_buffer ag))%nat) (ind d) →
  (0 < Replay.size (replay_buffer ag))%nat →
  robust (cfg ag) = true → rtype (cfg ag) ≠ "continuous" →
  train ag d = Raise TypeError.
Proof.
  intros Hwf Hind Hpos Hrob Hrt.
  destruct (ReplayProofs.gather_ok _ _ Hwf Hind) as (B & HB & _).
  unfold train, Replay.sample_with, Replay.randint.
  rewrite decide_True by lia. cbn [mbind result_bind]. rewrite HB.
  cbn [mbind result_bind]. rewrite Hrob.
  by rewrite robust_block_discrete.
Qed.

(** X6. On a well-formed buffer and for indices drawn below its size, a
    call of [train] fails in exactly two ways: on an empty buffer the
    sampling raises, and in robust mode with a reward type other than
    ['continuous'] the reward model raises [TypeError]; in every other case
    the call completes. *)
Theorem train_outcome ag d :
  Replay.wf (replay_buffer ag) →
  Forall (λ i, (i < Replay.size (replay_buffer ag))%nat) (ind d) →
  (Replay.size (replay_buffer ag) = 0%nat → train ag d = Raise RuntimeError)
  ∧ ((0 < Replay.size (replay_buffer ag))%nat → robust (cfg ag) = true →
       rtype (cfg ag) ≠ "continuous" → train ag d = Raise TypeError)
  ∧ ((0 < Replay.size (replay_buffer ag))%nat →
       (robust (cfg ag) = true → rtype (cfg ag) = "continuous") →
       ∃ ag', train ag d = Ok ag').
Proof.
  intros Hwf Hind. split_and!.
  - intros Hz. unfold train, Replay.sample_with, Replay.randint.
    by rewrite Hz.
  - intros Hpos Hrob Hrt. by apply train_fails_discrete.
  - intros Hpos Hrt. by apply train_succeeds.
Qed.

Lemma update_alpha_inv ag lp ag' :
  update_alpha ag lp = Ok ag' →
  alpha ag' = exp (log_alpha ag')
  ∧ target_entropy ag' = target_entropy ag
  ∧ actor ag' = actor ag ∧ actor_optimizer ag' = actor_optimizer ag
  ∧ reward_optimizer ag' = reward_optimizer ag.
Proof.
  unfold update_alpha. destruct lp as [l|]; [|done].
  cbn [mbind result_bind]. destruct (opt_step _ _ _).
  intros Hag. apply Ok_inv in Hag as <-. by split_and!.
Qed.

(** X7. After a successful call of [train] in adaptive mode the entropy
    coefficient is the exponential of the learned [log_alpha], hence
    positive; without adaptive mode the coefficient, [log_alpha] and its
    optimizer are left as they were. *)
Theorem alpha_positive ag d ag' :
  train ag d = Ok ag' →
  (adaptive_alpha (cfg ag) = true →
     alpha ag' = exp (log_alpha ag') ∧ 0 < alpha ag')
  ∧ (adaptive_alpha (cfg ag) = false →
       alpha ag' = alpha ag ∧ log_alpha ag' = log_alpha ag
       ∧ alpha_optim ag' = alpha_optim ag).
Proof.
  intros (B & ag1 & r_opt & y & ag4 & HB & Hrob & Hy & Hal & ->)%train_inv.
  assert (Hsame : same_nets ag ag1).
  { destruct (robust (cfg ag)).
    - destruct Hrob as (ro & Hrb & _).
      by destruct (robust_block_inv _ _ _ _ _ Hrb)
        as (? & _ & _ & _ & _ & ? & _).
    - destruct Hrob as [-> _]. unfold same_nets. by split_and!. }
  destruct Hsame as (Hc&_&_&Ha&_&_&_&_&_&_&_&Hla&Hao).
  rewrite Hc in Hal. split.
  - intros Had. rewrite Had in Hal.
    apply update_alpha_inv in Hal as (Hexp & _).
    cbn. rewrite Hexp. split; [done|apply exp_pos].
  - intros Had. rewrite Had in Hal. subst ag4. cbn. by rewrite Ha, Hla, Hao.
Qed.

(** The entropy coefficient after a call of [train]. *)
Lemma train_alpha_cases ag d ag' :
  train ag d = Ok ag' →
  (adaptive_alpha (cfg ag) = true → alpha ag' = exp (log_alpha ag'))
  ∧ (adaptive_alpha (cfg ag) = false → alpha ag' = alpha ag).
Proof.
  intros (B & ag1 & r_opt & y & ag4 & HB & Hrob & Hy & Hal & ->)%train_inv.
  assert (Hsame : same_nets ag ag1).
  { destruct (robust (cfg ag)).
    - destruct Hrob as (ro & Hrb & _).
      by destruct (robust_block_inv _ _ _ _ _ Hrb)
        as (? & _ & _ & _ & _ & ? & _).
    - destruct Hrob as [-> _]. unfold same_nets. by split_and!. }
  destruct Hsame as (Hc&_&_&Ha&_).
  rewrite Hc in Hal. split.
  - intros Had. rewrite Had in Hal.
    apply update_alpha_inv in Hal as (Hexp & _). exact Hexp.
  - intros Had. rewrite Had in Hal. subst ag4. cbn. by rewrite Ha.
Qed.

(** X8. A successful call of [train] never writes the replay buffer,
    [delta], [tau] or the target entropy, and of the keyword arguments it
    writes none but [alpha]: dimensions, batch size, discount, flags,
    learning rates, standard deviations and reward type keep their values.
    The attribute [alpha] is overwritten with the exponential of
    [log_alpha] in adaptive mode and kept otherwise. When the agent is not
    robust, [train] also leaves the reward net, the dual variable and
    their optimizers untouched. *)
Theorem train_untouched ag d ag' :
  train ag d = Ok ag' →
  replay_buffer ag' = replay_buffer ag
  ∧ delta ag' = delta ag ∧ tau ag' = tau ag
  ∧ target_entropy ag' = target_entropy ag
  ∧ (state_dim (cfg ag') = state_dim (cfg ag)
     ∧ action_dim (cfg ag') = action_dim (cfg ag)
     ∧ batch_size (cfg ag') = batch_size (cfg ag)
     ∧ gamma (cfg ag') = gamma (cfg ag)
     ∧ adaptive_alpha (cfg ag') = adaptive_alpha (cfg ag)
     ∧ a_lr (cfg ag') = a_lr (cfg ag)
     ∧ c_lr (cfg ag') = c_lr (cfg ag)
     ∧ r_lr (cfg ag') = r_lr (cfg ag)
     ∧ b_lr (cfg ag') = b_lr (cfg ag)
     ∧ robust (cfg ag') = robust (cfg ag)
     ∧ train_std (cfg ag') = train_std (cfg ag)
     ∧ eval_std (cfg ag') = eval_std (cfg ag)
     ∧ rtype (cfg ag') = rtype (cfg ag))
  ∧ (adaptive_alpha (cfg ag) = true → alpha ag' = exp (log_alpha ag'))
  ∧ (adaptive_alpha (cfg ag) = false → alpha ag' = alpha ag)
  ∧ (robust (cfg ag) = false →
       reward ag' = reward ag ∧ reward_optimizer ag' = reward_optimizer ag
       ∧ beta ag' = beta ag ∧ beta_optimizer ag' = beta_optimizer ag).
Proof.
  intros Htrain.
  destruct (train_alpha_cases _ _ _ Htrain) as [Had Hna].
  destruct (train_frame _ _ _ Htrain)
    as (B & ag1 & r_opt & y & HB & Hblk & Hsame & Hy
        & Hc & Hd & Ht & Hbuf & Hb & Hbo & Hr & Hq & Hqt).
  destruct (train_inv _ _ _ Htrain)
    as (B' & ag1' & r_opt' & y' & ag4 & HB' & Hrob' & Hy' & Hal & ->).
  assert (Hs' : same_nets ag ag1').
  { destruct (robust (cfg ag)).
    - destruct Hrob' as (ro & Hrb & _).
      by destruct (robust_block_inv _ _ _ _ _ Hrb)
        as (? & _ & _ & _ & _ & ? & _).
    - destruct Hrob' as [-> _]. unfold same_nets. by split_and!. }
  assert (Hte : target_entropy ag4 = target_entropy ag
                ∧ (robust (cfg ag) = false →
                   reward_optimizer ag4 = reward_optimizer ag)).
  { destruct Hs' as (Hc'&_&_&_&_&_&_&_&_&_&Hte'&_).
    destruct (adaptive_alpha (cfg ag1')).
    - apply update_alpha_inv in Hal as (_ & Hte4 & _ & _ & Hro4).
      cbn in Hte4, Hro4. rewrite Hte4, Hro4, Hte'. split; [done|].
      intros Hnr. rewrite Hnr in Hrob'. by destruct Hrob' as [-> _].
    - subst ag4. cbn. rewrite Hte'. split; [done|].
      intros Hnr. rewrite Hnr in Hrob'. by destruct Hrob' as [-> _]. }
  destruct Hte as [Hte Hro].
  split_and!; try done; try (by rewrite Hc).
  intros Hnr. rewrite Hnr in Hblk. destruct Hblk as [-> _].
  split_and!; try done. by apply Hro.
Qed.

End WithTorch.

#[local] Existing Instance Toy.toy_torch.

Lemma train_outcome_witness :
  ∃ ag', train (Toy.toy_agent false) Toy.toy_draws = Ok ag'.
Proof.
  destruct (train_outcome (Toy.toy_agent false) Toy.toy_draws
              ReplayProofs.toy_buffer_wf)
    as (_ & _ & Hok).
  - repeat constructor.
  - apply Hok; [simpl; lia|done].
Defined.

Lemma alpha_positive_witness :
  ∃ ag', train (Toy.toy_agent false) Toy.toy_draws = Ok ag'
         ∧ alpha ag' = 0.12.
Proof.
  destruct (train (Toy.toy_agent false) Toy.toy_draws) as [ag'|e] eqn:Ht.
  - exists ag'. split; [done|].
    destruct (alpha_positive _ _ _ Ht) as [_ Hfix].
    by destruct Hfix as (-> & _).
  - pose proof (toy_train_ok false) as Hok. rewrite Ht in Hok. done.
Defined.

Lemma toy_adaptive_train_ok :
  is_ok (train Toy.toy_agent_adaptive Toy.toy_draws) = true.
Proof. reflexivity. Qed.

Lemma train_untouched_witness :
  ∃ ag', train Toy.toy_agent_adaptive Toy.toy_draws = Ok ag'
         ∧ replay_buffer ag' = Toy.toy_buffer ∧ gamma (cfg ag') = 0.99
         ∧ alpha ag' = exp (log_alpha ag') ∧ beta ag' = [0].
Proof.
  destruct (train Toy.toy_agent_adaptive Toy.toy_draws) as [ag'|e] eqn:Ht.
  - exists ag'. split; [done|].
    destruct (train_untouched _ _ _ Ht)
      as (Hb & _ & _ & _ & Hkw & Had & _ & Hnr).
    destruct Hkw as (_ & _ & _ & Hg & _).
    destruct Hnr as (_ & _ & Hbeta & _); [done|].
    rewrite Hb, Hg, Hbeta. split_and!; [done|done|by apply Had|done].
  - pose proof toy_adaptive_train_ok as Hok. rewrite Ht in Hok. done.
Defined.

End TrainProofs.

(** ** The learning-rate attributes *)

Module DriverProofs.
Import Tensor Agent AgentProofs Driver.
Local Open Scope R_scope.

Section WithTorch.
Context `{Torch}.

Lemma dual_loop_set_lr n rs ag a c :
  for_range n (dual_step rs) (set_lr ag a c)
  = set_lr (for_range n (dual_step rs) ag) a c.
Proof.
  induction n as [|n IH]; [done|].
  rewrite !for_range_S, IH. done.
Qed.

Lemma dual_tail_set_lr n rs ag a c :
  (let ag2 := for_range n (dual_step rs) (set_lr ag a c) in
   let r_opt := dual_func (delta ag2) rs rs (exp <$> beta ag2) in
   Ok (ag2, r_opt))
  = (λ p, (set_lr p.1 a c, p.2))
      <$> (let ag2 := for_range n (dual_step rs) ag in
           let r_opt := dual_func (delta ag2) rs rs (exp <$> beta ag2) in
           Ok (ag2, r_opt)).
Proof.
  cbv zeta. rewrite dual_loop_set_lr.
  generalize (for_range n (dual_step rs) ag). intros ag1. done.
Qed.

Lemma robust_block_set_lr ag B d a c :
  robust_block (set_lr ag a c) B d
  = (λ p, (set_lr p.1 a c, p.2)) <$> robust_block ag B d.
Proof.
  unfold robust_block.
  change (Reward.forward (reward (set_lr ag a c)) (rtype (cfg (set_lr ag a c))))
    with (Reward.forward (reward ag) (rtype (cfg ag))).
  destruct (Reward.forward _ _ _ _ _); [|done].
  cbn [mbind result_bind].
  change (set_reward (set_lr ag a c)
            (opt_step (reward_optimizer (set_lr ag a c))
               (r_loss (set_lr ag a c) B d) (reward (set_lr ag a c))))
    with (set_lr (set_reward ag
            (opt_step (reward_optimizer ag) (r_loss ag B d) (reward ag))) a c).
  generalize (set_reward ag
            (opt_step (reward_optimizer ag) (r_loss ag B d) (reward ag))).
  intros ag0.
  change (Reward.sample (reward (set_lr ag0 a c)) (rtype (cfg (set_lr ag0 a c))))
    with (Reward.sample (reward ag0) (rtype (cfg ag0))).
  destruct (Reward.sample _ _ _ _ _ _) as [rs|]; [|done].
  cbn [mbind result_bind].
  exact (dual_tail_set_lr 10 rs ag0 a c).
Qed.

(** X9. The attributes [a_lr] and [c_lr], which the loop of [main]
    multiplies by 0.9 after every training round, are never read by
    [train]: a call on the agent with these attributes changed gives the
    same outcome, with the same change of attributes. The optimizers keep
    the learning rates they were built with. *)
Theorem train_ignores_lr ag d a c :
  train (set_lr ag a c) d = (λ ag', set_lr ag' a c) <$> train ag d.
Proof.
  unfold train.
  change (replay_buffer (set_lr ag a c)) with (replay_buffer ag).
  change (batch_size (cfg (set_lr ag a c))) with (batch_size (cfg ag)).
  change (robust (cfg (set_lr ag a c))) with (robust (cfg ag)).
  destruct (Replay.sample_with _ _ _) as [B|]; [|done].
  cbn [mbind result_bind].
  rewrite robust_block_set_lr.
  destruct (robust (cfg ag)).
  - destruct (robust_block ag B d) as [[ag1 ro]|]; [|done].
    cbn [mbind result_bind fmap result_fmap fst snd mret result_ret].
    change (critic_target (set_lr ag1 a c) B (Some ro) d)
      with (critic_target ag1 B (Some ro) d).
    destruct (critic_target _ _ _ _) as [y|]; [|done].
    cbn [mbind result_bind]. unfold update_actor.
    change (adaptive_alpha (cfg (set_actor _ _))) with (adaptive_alpha (cfg ag1)).
    destruct (adaptive_alpha (cfg ag1)); [|done].
    unfold update_alpha. cbn. destruct (opt_step _ _ _). done.
  - cbn [mbind result_bind fmap result_fmap fst snd mret result_ret].
    change (critic_target (set_lr ag a c) B None d)
      with (critic_target ag B None d).
    destruct (critic_target _ _ _ _) as [y|]; [|done].
    cbn [mbind result_bind]. unfold update_actor.
    change (adaptive_alpha (cfg (set_actor _ _))) with (adaptive_alpha (cfg ag)).
    destruct (adaptive_alpha (cfg ag)); [|done].
    unfold update_alpha. cbn. destruct (opt_step _ _ _). done.
Qed.

End WithTorch.
End DriverProofs.

(** ** The training loop *)

Module LoopProofs.
Import Tensor Agent AgentProofs Driver.
Local Open Scope R_scope.

Section WithTorch.
Context `{Torch} `{Gym} `{PyFloat}.

Lemma train_times_ok draws n : ∀ k ag,
  Replay.wf (replay_buffer ag) →
  (0 < Replay.size (replay_buffer ag))%nat →
  (robust (cfg ag) = true → rtype (cfg ag) = "continuous") →
  (∀ k', Forall (λ i, (i < Replay.size (replay_buffer ag))%nat)
           (ind (draws k'))) →
  ∃ ag', train_times n k draws ag = Ok ag'
         ∧ replay_buffer ag' = replay_buffer ag ∧ cfg ag' = cfg ag.
Proof.
  induction n as [|n IH]; intros k ag Hwf Hpos Hrt Hdr; simpl.
  - by exists ag.
  - destruct (TrainProofs.train_succeeds ag (draws k) Hwf (Hdr k) Hpos Hrt)
      as [ag1 Ht].
    rewrite Ht. cbn [mbind result_bind].
    destruct (train_frame _ _ _ Ht)
      as (_ & _ & _ & _ & _ & _ & _ & _ & Hc & _ & _ & Hbuf & _).
    destruct (IH (S k) ag1) as (ag' & Hok & Hb' & Hc').
    + by rewrite Hbuf.
    + by rewrite Hbuf.
    + by rewrite Hc.
    + by rewrite Hbuf.
    + exists ag'. rewrite Hok, Hb', Hc', Hbuf, Hc. done.
Qed.

Lemma maybe_train_ok opt steps inp ag :
  update_every opt ≠ 0%Z →
  Replay.wf (replay_buffer ag) →
  (0 < Replay.size (replay_buffer ag))%nat →
  (robust (cfg ag) = true → rtype (cfg ag) = "continuous") →
  (∀ k, Forall (λ i, (i < Replay.size (replay_buffer ag))%nat)
          (ind (train_draws inp k))) →
  ∃ ag', maybe_train opt steps inp ag = Ok ag'
         ∧ replay_buffer ag' = replay_buffer ag
         ∧ robust (cfg ag') = robust (cfg ag)
         ∧ rtype (cfg ag') = rtype (cfg ag)
         ∧ ((steps < 10 * max_e_steps opt)%Z → ag' = ag).
Proof.
  intros Hue Hwf Hpos Hrt Hdr. unfold maybe_train, py_modZ.
  destruct (decide (steps >= 10 * max_e_steps opt)%Z) as [Hge|Hlt].
  - rewrite decide_False by done. cbn [mbind result_bind].
    destruct (decide _).
    + destruct (train_times_ok (train_draws inp)
                  (Z.to_nat (update_every opt)) 0 ag Hwf Hpos Hrt Hdr)
        as (ag' & -> & Hb & Hc).
      cbn [mbind result_bind]. eexists. split; [done|].
      cbn. rewrite Hb, Hc. split_and!; try done; lia.
    + exists ag. split_and!; try done; lia.
  - by exists ag.
Qed.

Lemma choose_action_ok opt st inp :
  ∃ aa ae, choose_action opt st inp = Ok (aa, ae)
    ∧ (max_action opt ≠ 0 → ae = Adapter.Action_adapter aa (max_action opt))
    ∧ ((total_steps st < 10 * max_e_steps opt)%Z → ae = action_sample inp)
    ∧ ((10 * max_e_steps opt ≤ total_steps st)%Z →
         Forall (λ x, -1 < x < 1) aa).
Proof.
  unfold choose_action.
  destruct (decide (total_steps st < 10 * max_e_steps opt)%Z) as [Hlt|Hge].
  - eexists _, _. split_and!; [done| |done|lia].
    intros Hm. unfold Adapter.Action_adapter, Adapter.Action_adapter_reverse.
    rewrite <-list_fmap_compose.
    rewrite (list_fmap_ext _ id) by (intros; unfold compose, id; field; lra).
    by rewrite list_fmap_id.
  - destruct (BoundsProofs.select_action_ok (agent st) (state st) false
                (act_noise inp)) as (a & -> & Hb).
    cbn [mbind result_bind]. eexists _, _. split_and!; try done; lia.
Qed.

Lemma step_body_ok opt st inp :
  eval_interval opt ≠ 0%Z → update_every opt ≠ 0%Z →
  loop_inv st →
  (robust (cfg (agent st)) = true → rtype (cfg (agent st)) = "continuous") →
  (∀ k, Forall (λ i, (i < Nat.min (Z.to_nat (total_steps st) + 1)
                          (Replay.max_size (replay_buffer (agent st))))%nat)
          (ind (train_draws inp k))) →
  ∃ st', step_body opt st inp = Ok st'
    ∧ loop_inv st'
    ∧ total_steps st' = (total_steps st + 1)%Z
    ∧ Replay.max_size (replay_buffer (agent st'))
      = Replay.max_size (replay_buffer (agent st))
    ∧ robust (cfg (agent st')) = robust (cfg (agent st))
    ∧ rtype (cfg (agent st')) = rtype (cfg (agent st))
    ∧ total_episode st' = total_episode st
    ∧ env_seed st' = env_seed st
    ∧ ((total_steps st + 1 < 10 * max_e_steps opt)%Z →
         agent st'
         = set_replay_buffer (agent st) (replay_buffer (agent st'))).
Proof.
  intros Hei Hue (Hwf & Hnn & Hsz) Hrt Hdr. unfold step_body.
  destruct (choose_action_ok opt st inp) as (aa & ae & -> & _).
  cbn [mbind result_bind].
  destruct (train_env_step opt inp (env st) ae) as [e' [[[ns rw] dw] tr]].
  set (x := Replay.mkTransition _ _ _ _ _).
  destruct (ReplayProofs.add_step (replay_buffer (agent st)) x Hwf)
    as (buf & -> & Hwf' & Hmax & Hsz' & _).
  cbn [mbind result_bind].
  assert (Hsize : Replay.size buf
                  = Nat.min (Z.to_nat (total_steps st) + 1)
                      (Replay.max_size (replay_buffer (agent st)))).
  { rewrite Hsz', Hsz. lia. }
  assert (Hpos : (0 < Replay.size buf)%nat).
  { rewrite Hsize. pose proof (Replay.wf_pos _ Hwf). lia. }
  destruct (maybe_train_ok opt (total_steps st + 1) inp
              (set_replay_buffer (agent st) buf))
    as (ag' & -> & Hb & Hr & Hty & Hwarm); try done.
  { cbn. intros k. rewrite Hsize. apply Hdr. }
  cbn [mbind result_bind]. unfold py_modZ.
  rewrite decide_False by done. cbn [mbind result_bind mret result_ret].
  eexists. split; [done|]. cbn in Hb, Hr, Hty. cbn.
  rewrite Hb, Hr, Hty.
  assert (Hinv' : Replay.wf buf ∧ (0 ≤ total_steps st + 1)%Z
                  ∧ Replay.size buf
                    = Nat.min (Z.to_nat (total_steps st + 1))
                        (Replay.max_size buf)).
  { split_and!; [done|lia|].
    rewrite Hsize, Hmax. rewrite Z2Nat.inj_add by lia. done. }
  split; [unfold loop_inv; cbn; rewrite Hb; exact Hinv'|].
  by split_and!.
Qed.

Lemma draws_in_range_tail C t0 inp inputs :
  draws_in_range C t0 (inp :: inputs) → draws_in_range C (S t0) inputs.
Proof.
  intros Hdr j inp' k Hj.
  replace (S t0 + j + 1)%nat with (t0 + S j + 1)%nat by lia.
  by apply (Hdr (S j) inp' k).
Qed.

(** From a loop state that satisfies [loop_inv] the nested loops never
    raise, and they keep the invariant up to their end. *)
Lemma inner_loop_safe opt inputs : ∀ st,
  eval_interval opt ≠ 0%Z → update_every opt ≠ 0%Z →
  loop_inv st →
  (robust (cfg (agent st)) = true → rtype (cfg (agent st)) = "continuous") →
  draws_in_range (Replay.max_size (replay_buffer (agent st)))
    (Z.to_nat (total_steps st)) inputs →
  ∃ r, inner_loop opt inputs st = Ok r
    ∧ ∀ st', r = Some st' →
        loop_inv st' ∧ done st' = true
        ∧ (Max_train_steps opt ≤ total_steps st')%Z
        ∧ (total_steps st < total_steps st'
           ≤ total_steps st + Z.of_nat (length inputs))%Z
        ∧ Replay.size (replay_buffer (agent st'))
          = Nat.min (Z.to_nat (total_steps st'))
              (Replay.max_size (replay_buffer (agent st)))
        ∧ (env_seed st' - total_episode st'
           = env_seed st - total_episode st)%Z.
Proof.
  induction inputs as [|inp inputs IH]; intros st Hei Hue Hinv Hrt Hdr.
  - exists None. by split.
  - cbn [inner_loop].
    destruct (step_body_ok opt st inp Hei Hue Hinv Hrt)
      as (st1 & -> & Hinv1 & Hts & Hmax & Hr & Hty & Hep & Hseed & _).
    { intros k. specialize (Hdr 0%nat inp k eq_refl).
      by rewrite Nat.add_0_r in Hdr. }
    cbn [mbind result_bind].
    pose proof Hinv as (_ & Hnn & _).
    assert (Hdr1 : draws_in_range
                     (Replay.max_size (replay_buffer (agent st1)))
                     (Z.to_nat (total_steps st1)) inputs).
    { rewrite Hmax, Hts. rewrite Z2Nat.inj_add by lia.
      replace (Z.to_nat (total_steps st) + Z.to_nat 1)%nat
        with (S (Z.to_nat (total_steps st))) by lia.
      by eapply draws_in_range_tail. }
    destruct (done st1) eqn:Hdone.
    + destruct (decide (total_steps st1 < Max_train_steps opt)%Z) as [Hlt|Hge].
      * destruct (IH (episode_reset st1)) as (r & Hr1 & Hpost); try done.
        { unfold episode_reset. destruct (env_reset _ _). done. }
        { unfold episode_reset. destruct (env_reset _ _). cbn.
          by rewrite Hr, Hty. }
        { unfold episode_reset. destruct (env_reset _ _). done. }
        exists r. split; [done|]. intros st' ->.
        destruct (Hpost st' eq_refl) as (Hi & Hd & Hm & Hrange & Hs & Hse).
        assert (Hfields : agent (episode_reset st1) = agent st1
                  ∧ total_steps (episode_reset st1) = total_steps st1
                  ∧ env_seed (episode_reset st1) = (env_seed st1 + 1)%Z
                  ∧ total_episode (episode_reset st1)
                    = (total_episode st1 + 1)%Z).
        { unfold episode_reset. by destruct (env_reset _ _). }
        destruct Hfields as (Hag & Hts' & Hsd' & Hte').
        rewrite Hag, Hts', Hsd', Hte' in *.
        rewrite Hmax in Hs. cbn [length].
        split_and!; try done; lia.
      * exists (Some st1). split; [done|]. intros st' [= <-].
        destruct Hinv1 as (Hwf1 & Hnn1 & Hsz1).
        rewrite Hmax in Hsz1. cbn [length].
        split_and!; try done; try lia.
        unfold loop_inv. rewrite Hmax. by split_and!.
    + destruct (IH st1) as (r & Hr1 & Hpost); try done.
      { by rewrite Hr, Hty. }
      exists r. split; [done|]. intros st' ->.
      destruct (Hpost st' eq_refl) as (Hi & Hd & Hm & Hrange & Hs & Hse).
      rewrite Hmax in Hs. cbn [length].
      split_and!; try done; lia.
Qed.

Lemma init_loop_inv kwargs theta0 phi0 psi0 ag e seed :
  init kwargs theta0 phi0 psi0 = Ok ag →
  loop_inv (episode_reset (mkLoop ag e [] 0 0 seed false))
  ∧ cfg ag = kwargs
  ∧ Replay.max_size (replay_buffer ag) = (10 ^ 6)%nat.
Proof.
  intros Hinit. unfold init in Hinit.
  apply bind_Ok_inv in Hinit as (dl & _ & Hag). apply Ok_inv in Hag as <-.
  split; [|by split].
  unfold episode_reset. cbn [env env_seed]. destruct (env_reset e seed).
  unfold loop_inv. cbn [agent total_steps replay_buffer].
  split_and!; [|done|done].
  apply ReplayProofs.init_wf. apply Nat.neq_0_lt_0, Nat.pow_nonzero. lia.
Qed.

(** X10. The training loop of [main], run on an agent fresh from its
    constructor with [update_every] and [eval_interval] not zero, a reward
    type that is continuous when the agent is robust, and index draws below
    the number of transitions stored so far, never raises: every call of
    [train] finds a transition to sample. When it ends, [total_steps] has
    reached [Max_train_steps], the last episode is finished, the buffer
    holds one transition per step up to its capacity of [10^6], and the
    seed has advanced by one per episode. *)
Theorem training_loop_safe opt inputs kwargs theta0 phi0 psi0 ag e seed :
  init kwargs theta0 phi0 psi0 = Ok ag →
  eval_interval opt ≠ 0%Z → update_every opt ≠ 0%Z →
  (robust kwargs = true → rtype kwargs = "continuous") →
  draws_in_range (10 ^ 6) 0 inputs →
  ∃ r, training_loop opt inputs ag e seed = Ok r
    ∧ ∀ st', r = Some st' →
        (Max_train_steps opt ≤ total_steps st')%Z
        ∧ ((0 < Max_train_steps opt)%Z → done st' = true)
        ∧ (0 ≤ total_steps st' ≤ Z.of_nat (length inputs))%Z
        ∧ Replay.size (replay_buffer (agent st'))
          = Nat.min (Z.to_nat (total_steps st')) (10 ^ 6)
        ∧ env_seed st' = (seed + total_episode st')%Z.
Proof.
  intros Hinit Hei Hue Hrt Hdr. unfold training_loop. cbn [total_steps].
  destruct (init_loop_inv _ _ _ _ _ e seed Hinit) as (Hinv & Hcfg & Hmax).
  set (st0 := mkLoop ag e [] 0 0 seed false) in *.
  assert (Hf : agent (episode_reset st0) = ag
               ∧ total_steps (episode_reset st0) = 0%Z
               ∧ env_seed (episode_reset st0) = (seed + 1)%Z
               ∧ total_episode (episode_reset st0) = 1%Z).
  { unfold episode_reset. cbn. by destruct (env_reset e seed). }
  destruct Hf as (Hag & Hts & Hsd & Hte).
  destruct (decide (0 < Max_train_steps opt)%Z) as [Hpos|Hnp].
  - destruct (inner_loop_safe opt inputs (episode_reset st0))
      as (r & Hr & Hpost); try done.
    + by rewrite Hag, Hcfg.
    + by rewrite Hag, Hts, Hmax.
    + exists r. split; [done|]. intros st' ->.
      destruct (Hpost st' eq_refl) as (_ & Hd & Hm & Hrange & Hs & Hse).
      rewrite Hag, Hts, Hsd, Hte, ?Hmax in *.
      split_and!; try done; lia.
  - exists (Some st0). split; [done|]. intros st' [= <-].
    destruct Hinv as (_ & _ & Hsz). rewrite Hag, Hts, Hmax in Hsz.
    subst st0. cbn [total_steps done agent env_seed total_episode].
    split_and!; try lia; done.
Qed.

(** X11. In both branches of the choice of the action the action given to
    the environment is the stored agent action scaled by [max_action]
    (for [max_action] not zero): during the first [10 * max_e_steps] steps
    the environment action is the random one and the stored action its
    reverse image, afterwards the stored action is the one of the policy,
    with every entry strictly between -1 and 1. The choice never raises. *)
Theorem action_pair_consistent opt st inp :
  max_action opt ≠ 0 →
  ∃ action_agent action_env,
    choose_action opt st inp = Ok (action_agent, action_env)
    ∧ action_env = Adapter.Action_adapter action_agent (max_action opt)
    ∧ ((total_steps st < 10 * max_e_steps opt)%Z →
         action_env = action_sample inp)
    ∧ ((10 * max_e_steps opt ≤ total_steps st)%Z →
         Forall (λ x, -1 < x < 1) action_agent).
Proof.
  intros Hm.
  destruct (choose_action_ok opt st inp) as (aa & ae & Hok & Heq & Hw & Hb).
  exists aa, ae. split_and!; try done. by apply Heq.
Qed.

(** X12. One pass of the loop on a state satisfying [loop_inv], with index
    draws below the buffer size: if [eval_interval] is zero the pass raises
    [ZeroDivisionError] (for an agent that can train and [update_every]
    not zero, at its last statement); past the warm-up a zero
    [update_every] raises [ZeroDivisionError]; and for a robust agent
    whose reward type is the one [main] derives from an environment index
    outside 0, 1, 2, 3, 5, the first training round raises [TypeError]. *)
Theorem step_body_errors opt st inp :
  loop_inv st →
  (∀ k, Forall (λ i, (i < Nat.min (Z.to_nat (total_steps st) + 1)
                          (Replay.max_size (replay_buffer (agent st))))%nat)
          (ind (train_draws inp k))) →
  (eval_interval opt = 0%Z → update_every opt ≠ 0%Z →
     (robust (cfg (agent st)) = true →
      rtype (cfg (agent st)) = "continuous") →
     step_body opt st inp = Raise ZeroDivisionError)
  ∧ (update_every opt = 0%Z →
       (10 * max_e_steps opt ≤ total_steps st + 1)%Z →
       step_body opt st inp = Raise ZeroDivisionError)
  ∧ (robust (cfg (agent st)) = true →
       rtype (cfg (agent st)) = rtype_of (EnvIdex opt) →
       EnvIdex opt ∉ [0; 1; 2; 3; 5]%Z →
       (10 * max_e_steps opt ≤ total_steps st + 1)%Z →
       (0 < update_every opt)%Z →
       ((total_steps st + 1) mod update_every opt = 0)%Z →
       step_body opt st inp = Raise TypeError).
Proof.
  intros (Hwf & Hnn & Hsz) Hdr.
  assert (Hpre : ∃ aa ae e' ns rw dw tr buf,
    choose_action opt st inp = Ok (aa, ae)
    ∧ train_env_step opt inp (env st) ae = (e', (ns, rw, dw, tr))
    ∧ Replay.add (replay_buffer (agent st))
        (Replay.mkTransition (state st) aa
           (Shaping.Reward_adapter rw (EnvIdex opt)) ns dw) = Ok buf
    ∧ Replay.wf buf
    ∧ Replay.size buf
      = Nat.min (Z.to_nat (total_steps st) + 1)
          (Replay.max_size (replay_buffer (agent st)))
    ∧ (0 < Replay.size buf)%nat).
  { destruct (choose_action_ok opt st inp) as (aa & ae & Hca & _).
    destruct (train_env_step opt inp (env st) ae) as [e' [[[ns rw] dw] tr]]
      eqn:Hstep.
    destruct (ReplayProofs.add_step (replay_buffer (agent st))
                (Replay.mkTransition (state st) aa
                   (Shaping.Reward_adapter rw (EnvIdex opt)) ns dw) Hwf)
      as (buf & Hadd & Hwf' & Hmax & Hsz' & _).
    exists aa, ae, e', ns, rw, dw, tr, buf.
    assert (Hsize : Replay.size buf
                    = Nat.min (Z.to_nat (total_steps st) + 1)
                        (Replay.max_size (replay_buffer (agent st))))
      by (rewrite Hsz', Hsz; lia).
    split_and!; try done.
    rewrite Hsize. pose proof (Replay.wf_pos _ Hwf). lia. }
  destruct Hpre as (aa & ae & e' & ns & rw & dw & tr & buf
                    & Hca & Hstep & Hadd & Hwf' & Hsize & Hpos).
  unfold step_body. rewrite Hca. cbn [mbind result_bind].
  rewrite Hstep, Hadd. cbn [mbind result_bind].
  split_and!.
  - intros Hei Hue Hrt.
    destruct (maybe_train_ok opt (total_steps st + 1) inp
                (set_replay_buffer (agent st) buf))
      as (ag' & -> & _); try done.
    { cbn. intros k. rewrite Hsize. apply Hdr. }
    cbn [mbind result_bind]. unfold py_modZ. by rewrite decide_True by done.
  - intros Hue Hge. unfold maybe_train, py_modZ.
    rewrite (decide_True (P := (_ >= _)%Z)) by lia.
    by rewrite (decide_True (P := update_every opt = 0%Z)) by done.
  - intros Hrob Hrty Hidx Hge Hue Hmod. unfold maybe_train, py_modZ.
    rewrite (decide_True (P := (_ >= _)%Z)) by lia.
    rewrite (decide_False (P := update_every opt = 0%Z)) by lia.
    cbn [mbind result_bind].
    rewrite (decide_True (P := (_ mod _ = 0)%Z)) by done.
    destruct (Z.to_nat (update_every opt)) as [|n] eqn:Hn; [lia|].
    cbn [train_times].
    assert (Hty : rtype (cfg (set_replay_buffer (agent st) buf))
                  ≠ "continuous").
    { cbn. rewrite Hrty. unfold rtype_of. by rewrite decide_False by done. }
    rewrite (TrainProofs.train_fails_discrete
               (set_replay_buffer (agent st) buf) (train_draws inp 0%nat));
      try done.
    cbn [replay_buffer set_replay_buffer]. rewrite Hsize. apply Hdr.
Qed.

End WithTorch.

#[local] Existing Instance Toy.toy_torch.
#[local] Existing Instance ToyLoop.toy_gym.
#[local] Existing Instance exact_float.

Lemma action_pair_consistent_witness :
  ∃ action_agent,
    choose_action ToyLoop.toy_opt ToyLoop.toy_loop ToyLoop.toy_input
    = Ok (action_agent, Adapter.Action_adapter action_agent 2).
Proof.
  destruct (action_pair_consistent ToyLoop.toy_opt ToyLoop.toy_loop
              ToyLoop.toy_input)
    as (aa & ae & Hok & -> & _).
  - simpl. lra.
  - by exists aa.
Defined.

Lemma toy_loop_inv : loop_inv ToyLoop.toy_loop.
Proof.
  unfold loop_inv. split_and!; [|done|done].
  apply ReplayProofs.init_wf. lia.
Qed.

Lemma toy_draws_in_range C :
  (0 < C)%nat →
  draws_in_range C 0 [ToyLoop.toy_input; ToyLoop.toy_input].
Proof.
  intros HC j inp k Hj.
  assert (inp = ToyLoop.toy_input) as ->.
  { destruct j as [|[|j]]; simpl in Hj; by simplify_eq. }
  repeat constructor. lia.
Qed.

Lemma training_loop_safe_witness :
  ∃ ag r,
    init (Toy.toy_cfg false) [] [] [] = Ok ag
    ∧ training_loop ToyLoop.toy_opt [ToyLoop.toy_input; ToyLoop.toy_input]
        ag (env ToyLoop.toy_loop) 7 = Ok r.
Proof.
  destruct (init (Toy.toy_cfg false) [] [] []) as [ag|] eqn:Hinit; [|done].
  destruct (training_loop_safe ToyLoop.toy_opt
              [ToyLoop.toy_input; ToyLoop.toy_input]
              (Toy.toy_cfg false) [] [] [] ag (env ToyLoop.toy_loop) 7
              Hinit)
    as (r & Hr & _).
  - done.
  - done.
  - done.
  - apply toy_draws_in_range, Nat.neq_0_lt_0, Nat.pow_nonzero. lia.
  - by exists ag, r.
Defined.

Lemma step_body_errors_witness :
  step_body (mkOpt 1 2 0 1 0 2 true) ToyLoop.toy_loop ToyLoop.toy_input
  = Raise ZeroDivisionError.
Proof.
  destruct (step_body_errors (mkOpt 1 2 0 1 0 2 true) ToyLoop.toy_loop
              ToyLoop.toy_input toy_loop_inv)
    as (Hzero & _).
  - intros k. repeat constructor.
  - by apply Hzero.
Defined.

End LoopProofs.

(** ** More on the replay buffer *)

Module ReplayMore.
Import Replay ReplayProofs.

(** The state of a buffer filled from a new one, in the terms of the
    history of insertions. *)
Lemma add_all_state sd ad C xs b :
  0 < C → add_all (init sd ad C) xs = Ok b →
  wf b ∧ max_size b = C
  ∧ size b = Nat.min (length xs) C
  ∧ ptr b = length xs mod C
  ∧ rotate (ptr b) (rows b)
    = drop (length xs) (replicate C (zero_row sd ad) ++ xs).
Proof.
  intros HC Hb.
  destruct (add_all_from (replicate C (zero_row sd ad)) xs [] (init sd ad C))
    as (b' & Hall & Hwf & Hmax & Hsz & Hp & Hrot); simpl.
  - by apply init_wf.
  - by rewrite length_replicate.
  - lia.
  - by rewrite Nat.Div0.mod_0_l.
  - rewrite rows_init, app_nil_r. unfold rotate.
    rewrite length_replicate, Nat.Div0.mod_0_l. simpl.
    by rewrite app_nil_r.
  - simpl in *. rewrite Hb in Hall. injection Hall as <-. done.
Qed.

(** Every slot below [size] holds one of the last [C] insertions. *)
Lemma slot_in_history sd ad C xs b i :
  0 < C → add_all (init sd ad C) xs = Ok b → i < size b →
  ∃ t, rows b !! i = Some t ∧ t ∈ drop (length xs - C) xs.
Proof.
  intros HC Hb Hi.
  destruct (add_all_state sd ad C xs b HC Hb) as (Hwf & Hmax & Hsz & Hp & Hrot).
  pose proof (length_rows b Hwf) as Hlen. rewrite Hmax in Hlen.
  destruct (lookup_lt_is_Some_2 (rows b) i) as [t Ht]; [lia|].
  exists t. split; [done|].
  destruct (decide (C ≤ length xs)) as [Hfull|Hpart].
  - rewrite drop_app_ge, length_replicate in Hrot
      by (rewrite length_replicate; lia).
    rewrite <-Hrot. apply elem_of_rotate. by eapply list_elem_of_lookup_2.
  - replace (length xs - C) with 0 by lia. rewrite drop_0.
    assert (Hsmall : length xs < C) by lia.
    rewrite Nat.mod_small in Hp by done.
    rewrite drop_app_le, drop_replicate in Hrot
      by (rewrite length_replicate; lia).
    unfold rotate in Hrot. rewrite Hlen, Hp, Nat.mod_small in Hrot by done.
    apply app_inj_1 in Hrot as [_ Htake];
      [|by rewrite length_drop, length_replicate, Hlen].
    rewrite <-Htake. apply (list_elem_of_lookup_2 _ i).
    rewrite lookup_take_lt by lia. done.
Qed.

(** X13. On a buffer filled by a sequence of insertions into a new one,
    [sample] never returns a pre-allocated zero row: when nothing was
    inserted its only outcome is the exception, and otherwise every outcome
    is a batch each of whose rows is one of the last [C] inserted
    transitions. *)
Theorem sample_returns_added sd ad C xs b batch_size :
  0 < C → add_all (init sd ad C) xs = Ok b →
  (xs = [] → sample b batch_size = [Raise RuntimeError])
  ∧ (xs ≠ [] →
       ∀ o, o ∈ sample b batch_size →
         ∃ B, o = Ok B
              ∧ length (rows5 (b_s B) (b_a B) (b_r B) (b_s_next B) (b_dw B))
                = batch_size
              ∧ ∀ t, t ∈ rows5 (b_s B) (b_a B) (b_r B) (b_s_next B) (b_dw B) →
                     t ∈ drop (length xs - C) xs ∧ t ∈ xs).
Proof.
  intros HC Hb.
  destruct (add_all_state sd ad C xs b HC Hb) as (Hwf & Hmax & Hsz & _).
  split.
  - intros ->. simpl in Hsz. unfold sample, randint.
    by rewrite decide_False by lia.
  - intros Hne o Ho.
    assert (Hpos : 0 < size b).
    { rewrite Hsz. destruct xs as [|x0 xs']; [done|].
      change (length (x0 :: xs')) with (S (length xs')). lia. }
    unfold sample, randint in Ho. rewrite decide_True in Ho by done.
    apply list_elem_of_fmap in Ho as (ind & -> & Hind).
    apply index_vectors_elem in Hind as [Hlen Hall].
    assert (Hall' : Forall (λ i, i < size b) ind)
      by (eapply Forall_impl; [done|]; simpl; lia).
    destruct (gather_ok b ind Hwf Hall')
      as (B & HB & L1 & L2 & L3 & L4 & L5 & Hrow).
    exists B. split; [done|]. split.
    + rewrite (length_rows5 batch_size); congruence.
    + intros t Ht. apply list_elem_of_lookup_1 in Ht as [j Hj].
      assert (Hjlt : j < length ind).
      { apply lookup_lt_Some in Hj.
        rewrite (length_rows5 (length ind)) in Hj; done. }
      destruct (lookup_lt_is_Some_2 ind j Hjlt) as [i Hi].
      destruct (Hrow j i Hi) as (Hlt & _ & Heq).
      destruct (slot_in_history sd ad C xs b i HC Hb Hlt) as (t' & Ht' & Hin).
      rewrite Heq, Ht' in Hj. injection Hj as <-.
      split; [done|]. by eapply subseteq_drop.
Qed.

(** X14. A transition added to a buffer filled from a new one can be
    sampled at once: the slot it was written to is below the new size, and
    sampling that slot returns the five components just stored. The other
    slots are as before. *)
Theorem add_then_sample sd ad C xs b x :
  0 < C → add_all (init sd ad C) xs = Ok b →
  ∃ b' B,
    add b x = Ok b'
    ∧ ptr b < size b'
    ∧ sample_with b' 1 [ptr b] = Ok B
    ∧ rows5 (b_s B) (b_a B) (b_r B) (b_s_next B) (b_dw B) = [x]
    ∧ (∀ i, i ≠ ptr b → rows b' !! i = rows b !! i).
Proof.
  intros HC Hb.
  destruct (add_all_state sd ad C xs b HC Hb) as (Hwf & Hmax & Hsz & Hp & _).
  destruct (add_step b x Hwf) as (b' & Hadd & Hwf' & Hmax' & Hsz' & _ & Hrows).
  assert (Hlt : ptr b < size b').
  { rewrite Hsz', Hsz, Hp, Hmax.
    pose proof (Nat.mod_upper_bound (length xs) C).
    pose proof (Nat.Div0.mod_le (length xs) C). lia. }
  destruct (gather_ok b' [ptr b] Hwf')
    as (B & HB & L1 & L2 & L3 & L4 & L5 & Hrow).
  { by repeat constructor. }
  exists b', B. split_and!; try done.
  - unfold sample_with, randint. rewrite decide_True by lia. done.
  - destruct (Hrow 0 (ptr b) eq_refl) as (_ & _ & Heq).
    rewrite Hrows, list_lookup_insert_eq in Heq
      by (rewrite length_rows by done; apply Hwf).
    assert (Hlen : length (rows5 (b_s B) (b_a B) (b_r B) (b_s_next B)
                             (b_dw B)) = 1)
      by (by apply length_rows5).
    destruct (rows5 _ _ _ _ _) as [|t [|]]; simpl in *; try done.
    by injection Heq as ->.
  - intros i Hi. rewrite Hrows. by apply list_lookup_insert_ne.
Qed.

Lemma sample_returns_added_witness :
  ∃ b, add_all (init 1 1 2) [Toy.x1; Toy.x2; Toy.x3] = Ok b
       ∧ ∀ o, o ∈ sample b 2 → ∃ B, o = Ok B.
Proof.
  destruct (add_all (init 1 1 2) [Toy.x1; Toy.x2; Toy.x3]) as [b|] eqn:Hb;
    [|done].
  exists b. split; [done|]. intros o Ho.
  destruct (sample_returns_added 1 1 2 [Toy.x1; Toy.x2; Toy.x3] b 2
              ltac:(lia) Hb) as [_ Hne].
  destruct (Hne ltac:(done) o Ho) as (B & -> & _). by exists B.
Defined.

Lemma add_then_sample_witness :
  ∃ b b' B,
    add_all (init 1 1 2) [Toy.x1; Toy.x2] = Ok b
    ∧ add b Toy.x3 = Ok b'
    ∧ sample_with b' 1 [ptr b] = Ok B
    ∧ rows5 (b_s B) (b_a B) (b_r B) (b_s_next B) (b_dw B) = [Toy.x3].
Proof.
  destruct (add_all (init 1 1 2) [Toy.x1; Toy.x2]) as [b|] eqn:Hb; [|done].
  destruct (add_then_sample 1 1 2 [Toy.x1; Toy.x2] b Toy.x3 ltac:(lia) Hb)
    as (b' & B & Hadd & _ & Hs & Hrows & _).
  by exists b, b', B.
Defined.

End ReplayMore.

(** ** Checkpoints *)

Module CheckpointProofs.
Import Agent Checkpoint.

Lemma append_inj_l (s t1 t2 : string) : s +:+ t1 = s +:+ t2 → t1 = t2.
Proof. induction s as [|c s IH]; simpl; [done|]. intros [= Heq]. auto. Qed.

Lemma length_append (s t : string) :
  String.length (s +:+ t) = String.length s + String.length t.
Proof. induction s as [|c s IH]; simpl; [done|]. by rewrite IH. Qed.

Lemma append_inj_r (s1 s2 u : string) : s1 +:+ u = s2 +:+ u → s1 = s2.
Proof.
  revert s2. induction s1 as [|c s1 IH]; intros [|c' s2] Heq.
  - done.
  - exfalso. apply (f_equal String.length) in Heq.
    rewrite !length_append in Heq.
    change (String.length (String c' s2)) with (S (String.length s2)) in Heq.
    change (String.length "") with 0 in Heq. lia.
  - exfalso. apply (f_equal String.length) in Heq.
    rewrite !length_append in Heq.
    change (String.length (String c s1)) with (S (String.length s1)) in Heq.
    change (String.length "") with 0 in Heq. lia.
  - change (String c (s1 +:+ u) = String c' (s2 +:+ u)) in Heq.
    injection Heq as -> Heq. f_equal. by apply IH.
Qed.

Lemma actor_path_inj EnvName t1 t2 :
  actor_path EnvName t1 = actor_path EnvName t2 → t1 = t2.
Proof.
  unfold actor_path. intros Heq.
  do 3 apply append_inj_l in Heq. apply append_inj_r in Heq.
  by apply (inj pretty).
Qed.

Lemma q_critic_path_inj EnvName t1 t2 :
  q_critic_path EnvName t1 = q_critic_path EnvName t2 → t1 = t2.
Proof.
  unfold q_critic_path. intros Heq.
  do 3 apply append_inj_l in Heq. apply append_inj_r in Heq.
  by apply (inj pretty).
Qed.

Lemma actor_q_critic_path_ne EnvName t1 t2 :
  actor_path EnvName t1 ≠ q_critic_path EnvName t2.
Proof.
  unfold actor_path, q_critic_path. intros Heq.
  do 2 apply append_inj_l in Heq. simpl in Heq. done.
Qed.

Section WithTorch.
Context `{Torch}.

Lemma load_state_dict_Some files path saved params :
  files !! path = Some saved → length saved = length params →
  load_state_dict files path params = inr saved.
Proof.
  intros Hf Hl. unfold load_state_dict. rewrite Hf.
  by rewrite decide_True by done.
Qed.

(** X15. Loading what was saved under the same name and time step restores
    the actor and the critic of the saving agent into any agent whose
    networks have parameter vectors of the same lengths, and nothing else:
    the target critic, the optimizers, the replay buffer and the entropy
    coefficient of the loading agent stay as they were, so the target
    critic is not brought back in line with the loaded critic. Loading
    into the agent that saved changes nothing. *)
Theorem load_save_round_trip ag1 ag2 files EnvName timestep :
  length (actor ag2) = length (actor ag1) →
  length (q_critic ag2) = length (q_critic ag1) →
  ∃ ag',
    load ag2 (save ag1 files EnvName timestep) EnvName timestep = inr ag'
    ∧ ag' = set_q_critic (set_actor ag2 (actor_optimizer ag2, actor ag1))
              (q_critic_optimizer ag2, q_critic ag1)
    ∧ actor ag' = actor ag1 ∧ q_critic ag' = q_critic ag1
    ∧ q_critic_target ag' = q_critic_target ag2
    ∧ actor_optimizer ag' = actor_optimizer ag2
    ∧ q_critic_optimizer ag' = q_critic_optimizer ag2
    ∧ replay_buffer ag' = replay_buffer ag2
    ∧ alpha ag' = alpha ag2 ∧ log_alpha ag' = log_alpha ag2
    ∧ reward ag' = reward ag2 ∧ beta ag' = beta ag2
    ∧ cfg ag' = cfg ag2
    ∧ (ag2 = ag1 → ag' = ag1).
Proof.
  intros Ha Hq. unfold load, save.
  rewrite (load_state_dict_Some _ _ (actor ag1)); [| |done].
  - cbn [q_critic set_actor].
    rewrite (load_state_dict_Some _ _ (q_critic ag1)); [| |done].
    + eexists. split; [done|]. cbn. split_and!; try done.
      intros ->. by destruct ag1.
    + by rewrite lookup_insert_eq.
  - rewrite lookup_insert_ne by (symmetry; apply actor_q_critic_path_ne).
    by rewrite lookup_insert_eq.
Qed.

(** X16. Checkpoints of one environment name at different time steps do
    not disturb each other: a later [save] under another time step leaves
    the result of loading the earlier one unchanged. Without a file at the
    actor's path [load] fails with [FileNotFoundError] for that path. *)
Theorem save_other_timestep ag ag1 ag2 files EnvName t1 t2 :
  t1 ≠ t2 →
  load ag (save ag2 (save ag1 files EnvName t1) EnvName t2) EnvName t1
  = load ag (save ag1 files EnvName t1) EnvName t1
  ∧ (files !! actor_path EnvName t1 = None →
       load ag files EnvName t1
       = inl (FileNotFoundError (actor_path EnvName t1))).
Proof.
  intros Hne. split.
  - unfold load, load_state_dict, save.
    rewrite !(lookup_insert_ne _ (q_critic_path EnvName t2)
                (actor_path EnvName t1))
      by (symmetry; apply actor_q_critic_path_ne).
    rewrite !(lookup_insert_ne _ (actor_path EnvName t2)
                (actor_path EnvName t1))
      by (intros Heq; by apply actor_path_inj in Heq).
    rewrite !(lookup_insert_ne _ (q_critic_path EnvName t2)
                (q_critic_path EnvName t1))
      by (intros Heq; by apply q_critic_path_inj in Heq).
    rewrite !(lookup_insert_ne _ (actor_path EnvName t2)
                (q_critic_path EnvName t1))
      by apply actor_q_critic_path_ne.
    done.
  - intros Hnone. unfold load, load_state_dict. by rewrite Hnone.
Qed.

End WithTorch.

#[local] Existing Instance Toy.toy_torch.

Lemma load_save_round_trip_witness :
  load (Toy.toy_agent true) (save (Toy.toy_agent false) ∅ "PV1" 100) "PV1" 100
  = inr (Toy.toy_agent true).
Proof.
  destruct (load_save_round_trip (Toy.toy_agent false) (Toy.toy_agent true)
              ∅ "PV1" 100 eq_refl eq_refl)
    as (ag' & Hload & -> & _).
  exact Hload.
Defined.

Lemma save_other_timestep_witness :
  load (Toy.toy_agent true)
    (save (Toy.toy_agent true) (save (Toy.toy_agent false) ∅ "PV1" 100)
       "PV1" 200) "PV1" 100
  = load (Toy.toy_agent true) (save (Toy.toy_agent false) ∅ "PV1" 100)
      "PV1" 100.
Proof.
  apply (save_other_timestep (Toy.toy_agent true) (Toy.toy_agent false)
           (Toy.toy_agent true) ∅ "PV1" 100 200).
  done.
Defined.

End CheckpointProofs.

(** ** The continuous reward model *)

Module RewardMore.
Import Tensor Reward.
Local Open Scope R_scope.

Section WithTorch.
Context `{Torch}.

(** X17. For the continuous reward type [Reward.sample] returns one row
    per paired (state, action) row, each with exactly [num] entries, and
    its column [j] is what [Reward.forward] returns for the noise of draw
    [j]: entry [(i, j)] is the predicted mean of row [i] plus its standard
    deviation [exp (log_std)] times the draw. *)
Theorem sample_matrix psi state action num noise :
  ∃ rs,
    sample psi "continuous" state action num noise = Ok rs
    ∧ length rs = Nat.min (length state) (length action)
    ∧ Forall (λ row, length row = num) rs
    ∧ (∀ j, (j < num)%nat →
         ∃ r, forward psi "continuous" state action (noise j) = Ok r
              ∧ length r = length rs
              ∧ ∀ i row, rs !! i = Some row → row !! j = r !! i)
    ∧ (∀ i j row x, rs !! i = Some row → row !! j = Some x →
         ∃ sa, cat1 state action !! i = Some sa
               ∧ x = r_mu_layer psi (rnet psi sa)
                     + exp (r_log_std_layer psi (rnet psi sa)) * noise j i).
Proof.
  unfold sample, forward, forward_with.
  rewrite !decide_True by done. cbn [read_local].
  set (sas := cat1 state action).
  set (mu := r_mu_layer psi <$> (rnet psi <$> sas)).
  set (std := exp <$> (r_log_std_layer psi <$> (rnet psi <$> sas))).
  assert (Hlen : length (zip mu std) = Nat.min (length state) (length action)).
  { unfold mu, std, sas, cat1.
    rewrite length_zip_with, !length_fmap, length_zip_with. lia. }
  assert (Hzip : ∀ i ms, zip mu std !! i = Some ms →
            ∃ sa, sas !! i = Some sa
                  ∧ ms = (r_mu_layer psi (rnet psi sa),
                          exp (r_log_std_layer psi (rnet psi sa)))).
  { intros i ms Hms. unfold mu, std in Hms.
    rewrite lookup_zip_with, !list_lookup_fmap in Hms.
    destruct (sas !! i) as [sa|]; [|done]. simpl in Hms.
    injection Hms as <-. by exists sa. }
  eexists. split; [done|]. split_and!.
  - by rewrite length_imap.
  - apply Forall_lookup. intros i row. rewrite list_lookup_imap.
    destruct (zip mu std !! i); [|done]. simpl. intros [= <-].
    by rewrite length_fmap, length_seq.
  - intros j Hj. eexists. split; [done|]. split; [by rewrite !length_imap|].
    intros i row. rewrite !list_lookup_imap.
    destruct (zip mu std !! i) as [ms|]; [|done]. simpl. intros [= <-].
    rewrite list_lookup_fmap, lookup_seq_lt by done. done.
  - intros i j row x. rewrite list_lookup_imap.
    destruct (zip mu std !! i) as [ms|] eqn:Hms; [|done]. simpl.
    intros [= <-]. rewrite list_lookup_fmap.
    destruct (seq 0 num !! j) as [j'|] eqn:Hj; [|done]. simpl.
    intros [= <-]. apply lookup_seq in Hj as [-> _].
    destruct (Hzip i ms Hms) as (sa & Hsa & ->). by exists sa.
Qed.

End WithTorch.
End RewardMore.
